(** * go-PowerControl: topic codec, device store, message log and coordinator

    A shallow embedding of the Go packages [mqtt] (handler.go, client.go),
    [models] (device.go, message.go), [config] and [app] (app.go), followed by
    the properties of the design document that were checked against them.

    Conventions.
    - A Go [string] is a sequence of bytes: Rocq's [string] (a list of
      [ascii], one per byte).  Comparison with [<], [>] is bytewise
      lexicographic, [String.compare].
    - A Go [int] is a [Z]; the code only compares the integers modelled here,
      so no wrap-around arises.
    - [time.Now()] is an input: every function that reads the clock takes the
      instant it reads as an argument of type [Time].
    - An [error] built by [fmt.Errorf] keeps its format string and arguments.
    - A function that can panic returns an [option]; [None] is the panic.
    - What the encryption, the file system and the broker session answer is
      read from a [World]; what the program does to the broker and to the
      front end is returned as a list of [Action]s, in order.
    - The mutexes guard every method body as a whole; the methods are
      modelled as atomic state transformers and the interleaving of
      goroutines is outside this development. *)

From Stdlib Require Import ZArith Lia Ascii String.
From stdpp Require Import base option list sorting gmap strings.

Open Scope string_scope.
Open Scope list_scope.

(** ** Go values shared by the packages *)

Definition Time := Z.

(** The zero [time.Time], the value of a field that was never assigned. *)
Definition zeroTime : Time := 0%Z.

Inductive fmtArg :=
| ArgS (s : string)
| ArgD (n : Z)
| ArgW (e : error)
with error :=
| Errorf (format : string) (args : list fmtArg).

(** [(T, error)] results: [Ok v] is [(v, nil)], [Err e] is [(zero, e)]. *)
Inductive result (A : Type) :=
| Ok (v : A)
| Err (e : error).
Arguments Ok {A} v.
Arguments Err {A} e.

Definition is_Ok {A} (r : result A) : bool :=
  match r with Ok _ => true | Err _ => false end.

(** ** Package [strings] of the Go standard library *)

Module GoStrings.

(** [strings.Split(s, sep)] for a separator [sep] of one byte: the pieces
    of [s] between the occurrences of [sep]; one more piece than there are
    separators, so [Split "" sep = [""]]. *)
Fixpoint Split (s : string) (sep : ascii) : list string :=
  match s with
  | "" => [""]
  | String c s' =>
      if decide (c = sep) then "" :: Split s' sep
      else match Split s' sep with
           | piece :: pieces => String c piece :: pieces
           | [] => [String c ""]
           end
  end.

(** [strings.Join(elems, sep)]. *)
Fixpoint Join (elems : list string) (sep : string) : string :=
  match elems with
  | [] => ""
  | [e] => e
  | e :: rest => e +:+ sep +:+ Join rest sep
  end.

(** [strings.Contains(s, substr)]: [substr] occurs in [s] as a run of
    consecutive bytes. *)
Fixpoint Contains (s substr : string) : bool :=
  String.prefix substr s ||
  match s with
  | "" => false
  | String _ s' => Contains s' substr
  end.

(** No byte of [s] is [c]. *)
Fixpoint free_of (c : ascii) (s : string) : Prop :=
  match s with
  | "" => True
  | String b s' => b ≠ c ∧ free_of c s'
  end.

(** The functions of package [strings] that depend on the Unicode tables.
    They are an interface here: the properties below hold for every
    implementation, in particular for Go's. *)
Class Unicode := {
  TrimSpace : string → string;
  ToUpper : string → string;
  ToLower : string → string
}.

(** *** The three functions on ASCII input

    On a string whose bytes are all below 0x80 Go takes a fast path that
    needs no table: [TrimSpace] strips the six bytes of [asciiSpace]
    (tab, line feed, vertical tab, form feed, carriage return, space) and
    the case maps shift the letters by 32. *)

Definition isASCII (s : string) : bool :=
  forallb (λ c, (Ascii.N_of_ascii c <? 128)%N) (list_ascii_of_string s).

Fixpoint trimLeft (s : string) : string :=
  match s with
  | "" => ""
  | String c s' => if Ascii.is_space c then trimLeft s' else s
  end.

Fixpoint trimRight (s : string) : string :=
  match s with
  | "" => ""
  | String c s' =>
      match trimRight s' with
      | "" => if Ascii.is_space c then "" else String c ""
      | r => String c r
      end
  end.

Definition asciiTrimSpace (s : string) : string := trimRight (trimLeft s).

Definition upperByte (c : ascii) : ascii :=
  let n := Ascii.N_of_ascii c in
  if ((97 <=? n) && (n <=? 122))%N then Ascii.ascii_of_N (n - 32) else c.

Definition lowerByte (c : ascii) : ascii :=
  let n := Ascii.N_of_ascii c in
  if ((65 <=? n) && (n <=? 90))%N then Ascii.ascii_of_N (n + 32) else c.

Fixpoint mapBytes (f : ascii → ascii) (s : string) : string :=
  match s with
  | "" => ""
  | String c s' => String (f c) (mapBytes f s')
  end.

Definition asciiToUpper : string → string := mapBytes upperByte.
Definition asciiToLower : string → string := mapBytes lowerByte.

(** What Go's documentation and source promise for ASCII input. *)
Class UnicodeASCII `{Unicode} : Prop := {
  TrimSpace_ascii s : isASCII s = true → TrimSpace s = asciiTrimSpace s;
  ToUpper_ascii s : isASCII s = true → ToUpper s = asciiToUpper s;
  ToLower_ascii s : isASCII s = true → ToLower s = asciiToLower s
}.

(** The byte-wise functions as an instance: exact on ASCII strings, which
    is where the concrete examples below evaluate them. *)
Definition asciiOnly : Unicode :=
  {| TrimSpace := asciiTrimSpace;
     ToUpper := asciiToUpper;
     ToLower := asciiToLower |}.

End GoStrings.

(** ** Package [models] *)

Module models.
Import GoStrings.

(** *** device.go *)

Record DeviceOutlet := {
  DeviceName : string;
  OutletNumber : string;
  Status : string;
  LastUpdate : Time
}.

(** Go's [a > b] on strings. *)
Definition gtString (a b : string) : bool :=
  match String.compare a b with Gt => true | _ => false end.

(** The test of both sorting loops:
    [x.DeviceName > y.DeviceName ||
     (x.DeviceName == y.DeviceName && x.OutletNumber > y.OutletNumber)]. *)
Definition outOfOrder (x y : DeviceOutlet) : bool :=
  gtString (DeviceName x) (DeviceName y) ||
  (bool_decide (DeviceName x = DeviceName y) &&
   gtString (OutletNumber x) (OutletNumber y)).

(** [for j := j0; j < len(devices); j++ { if devices[i] is out of order
    with devices[j] { devices[i], devices[j] = devices[j], devices[i] } }];
    [steps] is [len(devices) - j0], the number of iterations left, so that
    [i] and [j] stay below [len(devices)] and both lookups succeed. *)
Fixpoint sortInner (steps i j : nat) (devices : list DeviceOutlet)
  : list DeviceOutlet :=
  match steps with
  | 0 => devices
  | S steps' =>
      let devices' :=
        match devices !! i, devices !! j with
        | Some x, Some y =>
            if outOfOrder x y then <[j:=x]> (<[i:=y]> devices) else devices
        | _, _ => devices
        end in
      sortInner steps' i (S j) devices'
  end.

(** [for i := i0; i < len(devices); i++ { inner loop from i+1 }]. *)
Fixpoint sortOuter (steps i : nat) (devices : list DeviceOutlet)
  : list DeviceOutlet :=
  match steps with
  | 0 => devices
  | S steps' =>
      sortOuter steps' (S i)
        (sortInner (length devices - S i) i (S i) devices)
  end.

(** The two nested loops that end [GetAll] and [Filter]. *)
Definition sortDevices (devices : list DeviceOutlet) : list DeviceOutlet :=
  sortOuter (length devices) 0 devices.

Module DeviceStore.

(** [map[string]*DeviceOutlet]; every pointer stored is to a fresh copy
    and every read copies the record out, so the map holds values. *)
Record t := { devices : gmap string DeviceOutlet }.

Definition NewDeviceStore : t := {| devices := ∅ |}.

Definition makeKey (deviceName outletNumber : string) : string :=
  deviceName +:+ ":" +:+ outletNumber.

Definition Add (s : t) (device : DeviceOutlet) (now : Time) : t :=
  let device :=
    {| DeviceName := DeviceName device;
       OutletNumber := OutletNumber device;
       Status := Status device;
       LastUpdate := now |} in
  let key := makeKey (DeviceName device) (OutletNumber device) in
  {| devices := <[key:=device]> (devices s) |}.

Definition Get (s : t) (deviceName outletNumber : string)
  : DeviceOutlet * bool :=
  let key := makeKey deviceName outletNumber in
  match devices s !! key with
  | None =>
      ({| DeviceName := ""; OutletNumber := ""; Status := "";
          LastUpdate := zeroTime |}, false)
  | Some device => (device, true)
  end.

(** [for _, device := range s.devices] visits every entry once, in an
    order that Go leaves unspecified and that changes from one loop to
    the next: any arrangement of the map's values. *)
Definition ranges (s : t) (visited : list DeviceOutlet) : Prop :=
  visited ≡ₚ (map_to_list (devices s)).*2.

(** [GetAll] once its [range] loop has visited the records in the order
    [visited]. *)
Definition GetAllFrom (visited : list DeviceOutlet) : list DeviceOutlet :=
  sortDevices visited.

(** [s.GetAll()] may return [result]. *)
Definition GetAll (s : t) (result : list DeviceOutlet) : Prop :=
  ∃ visited, ranges s visited ∧ result = GetAllFrom visited.

Definition Count (s : t) : nat := size (devices s).

Definition Clear (s : t) : t := {| devices := ∅ |}.

Section Filter.
Context `{Unicode}.

(** The condition of the [if] in [Filter]'s loop; [searchText] is
    already lower-cased. *)
Definition matches (searchText : string) (device : DeviceOutlet) : bool :=
  Contains (ToLower (DeviceName device)) searchText ||
  Contains (ToLower (OutletNumber device)) searchText ||
  Contains (ToLower (Status device)) searchText.

(** [Filter] for a non-empty [searchText], once its [range] loop has
    visited the records in the order [visited]. *)
Definition FilterFrom (searchText : string) (visited : list DeviceOutlet)
  : list DeviceOutlet :=
  let searchText := ToLower searchText in
  let filtered := filter (λ device, matches searchText device) visited in
  sortDevices filtered.

(** [s.Filter(searchText)] may return [result]. *)
Definition Filter (s : t) (searchText : string)
    (result : list DeviceOutlet) : Prop :=
  if decide (searchText = "") then GetAll s result
  else ∃ visited, ranges s visited ∧ result = FilterFrom searchText visited.
End Filter.

End DeviceStore.

(** *** message.go *)

Inductive MessageDirection := MessageSent | MessageReceived.

(** The string constants behind the two directions. *)
Definition directionString (d : MessageDirection) : string :=
  match d with MessageSent => "Send" | MessageReceived => "Recv" end.

Record MQTTMessage := {
  Direction : MessageDirection;
  Topic : string;
  Payload : string;
  Timestamp : Time
}.

Module MessageLog.

Record t := {
  messages : list MQTTMessage;
  maxSize : Z
}.

Definition NewMessageLog (maxSize : Z) : t :=
  let maxSize := if decide (maxSize ≤ 0)%Z then 1000%Z else maxSize in
  {| messages := []; maxSize := maxSize |}.

(** [None] is a run-time panic: the slice expression
    [l.messages[:l.maxSize]] with a negative bound. *)
Definition AddMessage (l : t) (direction : MessageDirection)
    (topic payload : string) (now : Time) : option t :=
  let msg :=
    {| Direction := direction; Topic := topic; Payload := payload;
       Timestamp := now |} in
  let messages := [msg] ++ messages l in
  if decide (Z.of_nat (length messages) > maxSize l)%Z then
    if decide (maxSize l < 0)%Z then None
    else Some {| messages := take (Z.to_nat (maxSize l)) messages;
                 maxSize := maxSize l |}
  else Some {| messages := messages; maxSize := maxSize l |}.

Definition GetRecent (l : t) (n : Z) : list MQTTMessage :=
  let n :=
    if decide (n ≤ 0 ∨ n > Z.of_nat (length (messages l)))%Z
    then Z.of_nat (length (messages l)) else n in
  take (Z.to_nat n) (messages l).

(** A copy of the slice: the list itself. *)
Definition GetAll (l : t) : list MQTTMessage := messages l.

Definition Clear (l : t) : t := {| messages := []; maxSize := maxSize l |}.

Definition Count (l : t) : nat := length (messages l).

End MessageLog.

End models.

(** ** The collaborators

    The outcomes of what lies outside the repository's own logic: the AES
    password sealing of crypto.go, the file system, and the broker session
    of the paho client.  A [Token] is what waiting on a paho token yields. *)

Inductive Token :=
| TokenPending              (* [WaitTimeout] returned false *)
| TokenFailed (e : error)   (* completed, [token.Error() != nil] *)
| TokenDone.                (* completed without error *)

Record World := {
  EncryptPassword : string → result string;
  DecryptPassword : string → result string;
  getConfigPath : result string;
  WriteFile : string → option error;
  newUUID : string;
  pahoIsConnected : bool;
  connectToken : Token;
  subscribeToken : Token;
  publishToken : Token
}.

(** ** Package [config] *)

Module config.

Record Config := {
  Username : string;
  PasswordHash : string;
  MQTTServer : string;
  ServerPort : Z;
  SubscribeString : string
}.

Definition DefaultConfig : Config :=
  {| Username := ""; PasswordHash := ""; MQTTServer := "";
     ServerPort := 1883; SubscribeString := "power/#" |}.

(** A method on [*Config] returns the configuration as it has left it
    together with its error. *)
Definition Validate (c : Config) : Config * option error :=
  if decide (ServerPort c < 1 ∨ ServerPort c > 65535)%Z then
    (c, Some (Errorf "invalid server port: %d" [ArgD (ServerPort c)]))
  else if decide (SubscribeString c = "") then
    ({| Username := Username c; PasswordHash := PasswordHash c;
        MQTTServer := MQTTServer c; ServerPort := ServerPort c;
        SubscribeString := "power/#" |}, None)
  else (c, None).

Definition IsEmpty (c : Config) : bool :=
  bool_decide (MQTTServer c = "") || bool_decide (Username c = "").

Definition SetPassword (w : World) (c : Config) (plaintext : string)
  : Config * option error :=
  match EncryptPassword w plaintext with
  | Err err => (c, Some (Errorf "failed to encrypt password: %w" [ArgW err]))
  | Ok encrypted =>
      ({| Username := Username c; PasswordHash := encrypted;
          MQTTServer := MQTTServer c; ServerPort := ServerPort c;
          SubscribeString := SubscribeString c |}, None)
  end.

Definition GetPassword (w : World) (c : Config) : result string :=
  if decide (PasswordHash c = "") then Ok ""
  else match DecryptPassword w (PasswordHash c) with
       | Err err => Err (Errorf "failed to decrypt password: %w" [ArgW err])
       | Ok plaintext => Ok plaintext
       end.

(** [json.MarshalIndent] cannot fail on a record of strings and an
    integer; the file's bytes are not modelled. *)
Definition Save (w : World) (c : Config) : Config * option error :=
  match getConfigPath w with
  | Err err => (c, Some err)
  | Ok configPath =>
      match Validate c with
      | (c, Some err) => (c, Some (Errorf "invalid config: %w" [ArgW err]))
      | (c, None) =>
          match WriteFile w configPath with
          | Some err =>
              (c, Some (Errorf "failed to write config file: %w" [ArgW err]))
          | None => (c, None)
          end
      end
  end.

(** What the file system and [encoding/json] answer to [Load]. *)
Record ConfigFile := {
  statNotExist : bool;                 (* [os.IsNotExist] of [os.Stat]'s error *)
  ReadFile : result string;
  Unmarshal : string → result Config   (* [json.Unmarshal] into a zero [Config] *)
}.

Definition Load (w : World) (f : ConfigFile) : result Config :=
  match getConfigPath w with
  | Err err => Err err
  | Ok configPath =>
      if statNotExist f then Ok DefaultConfig
      else
        match ReadFile f with
        | Err err => Err (Errorf "failed to read config file: %w" [ArgW err])
        | Ok data =>
            match Unmarshal f data with
            | Err err =>
                Err (Errorf "failed to parse config file: %w" [ArgW err])
            | Ok config =>
                match Validate config with
                | (_, Some err) => Err (Errorf "invalid config: %w" [ArgW err])
                | (config, None) => Ok config
                end
            end
        end
  end.

End config.

(** ** Package [config], crypto.go

    The cipher, the hash, the encoding and the reading of the machine are
    Go's; they are an interface here.  A [[]byte] is a [string]. *)

Module crypto.

(** A [cipher.AEAD]: [Seal nonce plaintext] is what [gcm.Seal] appends to
    its destination. *)
Record AEAD := {
  NonceSize : nat;
  Seal : string → string → string;
  Open : string → string → result string
}.

Class Primitives := {
  Block : Type;
  Sum256 : string → string;
  NewCipher : string → result Block;
  NewGCM : Block → result AEAD;
  EncodeToString : string → string;
  DecodeString : string → result string;
  HardwareAddrString : string → string
}.

(** What the machine answers: its host name, the hardware addresses of its
    interfaces in order, and the random source, which fails or delivers the
    bytes [randByte 0], [randByte 1], ... *)
Record Machine := {
  Hostname : result string;
  Interfaces : result (list string);
  randError : option error;
  randByte : nat → ascii
}.

(** [io.ReadFull(rand.Reader, buf)] for a buffer of [n] bytes. *)
Definition ReadFull (m : Machine) (n : nat) : result string :=
  match randError m with
  | Some err => Err err
  | None => Ok (string_of_list_ascii (randByte m <$> seq 0 n))
  end.

(** [s[:n]] and [s[n:]] for [n] at most [len(s)]. *)
Fixpoint sliceTo (s : string) (n : nat) : string :=
  match n, s with
  | S n', String c s' => String c (sliceTo s' n')
  | _, _ => ""
  end.

Fixpoint sliceFrom (s : string) (n : nat) : string :=
  match n, s with
  | S n', String _ s' => sliceFrom s' n'
  | _, _ => s
  end.

Section Functions.
Context `{Primitives}.

(** The loop over the interfaces: the first hardware address that is not
    empty, as text. *)
Fixpoint firstHardwareAddr (interfaces : list string) : string :=
  match interfaces with
  | [] => ""
  | addr :: rest =>
      if decide (0 < String.length addr) then HardwareAddrString addr
      else firstHardwareAddr rest
  end.

Definition getEncryptionKey (m : Machine) : result string :=
  let hostname :=
    match Hostname m with
    | Err _ => "go-powercontrol"
    | Ok hostname => hostname
    end in
  let macAddr :=
    match Interfaces m with
    | Ok interfaces => firstHardwareAddr interfaces
    | Err _ => ""
    end in
  let keySource := hostname +:+ macAddr +:+ "go-powercontrol-secret" in
  Ok (Sum256 keySource).

Definition EncryptPassword (m : Machine) (plaintext : string) : result string :=
  if decide (plaintext = "") then Ok ""
  else
    match getEncryptionKey m with
    | Err err => Err (Errorf "failed to get encryption key: %w" [ArgW err])
    | Ok key =>
        match NewCipher key with
        | Err err => Err (Errorf "failed to create cipher: %w" [ArgW err])
        | Ok block =>
            match NewGCM block with
            | Err err => Err (Errorf "failed to create GCM: %w" [ArgW err])
            | Ok gcm =>
                match ReadFull m (NonceSize gcm) with
                | Err err =>
                    Err (Errorf "failed to generate nonce: %w" [ArgW err])
                | Ok nonce =>
                    let ciphertext := nonce +:+ Seal gcm nonce plaintext in
                    Ok (EncodeToString ciphertext)
                end
            end
        end
    end.

Definition DecryptPassword (m : Machine) (ciphertext : string) : result string :=
  if decide (ciphertext = "") then Ok ""
  else
    match getEncryptionKey m with
    | Err err => Err (Errorf "failed to get encryption key: %w" [ArgW err])
    | Ok key =>
        match DecodeString ciphertext with
        | Err err => Err (Errorf "failed to decode base64: %w" [ArgW err])
        | Ok data =>
            match NewCipher key with
            | Err err => Err (Errorf "failed to create cipher: %w" [ArgW err])
            | Ok block =>
                match NewGCM block with
                | Err err => Err (Errorf "failed to create GCM: %w" [ArgW err])
                | Ok gcm =>
                    let nonceSize := NonceSize gcm in
                    if decide (String.length data < nonceSize) then
                      Err (Errorf "ciphertext too short" [])
                    else
                      let nonce := sliceTo data nonceSize in
                      let ciphertextBytes := sliceFrom data nonceSize in
                      match Open gcm nonce ciphertextBytes with
                      | Err err =>
                          Err (Errorf "failed to decrypt: %w" [ArgW err])
                      | Ok plaintext => Ok plaintext
                      end
                end
            end
        end
    end.

End Functions.

End crypto.

(** What the program does to the outside, in order: calls on the broker
    session and events emitted to the front end. *)
Inductive EventData :=
| DataMessage (direction topic payload : string)
| DataDevice (device : models.DeviceOutlet)
| DataBool (b : bool)
| DataNone.

Inductive Action :=
| Connects (server : string) (port : Z) (clientID username password : string)
| Subscribes (topic : string)
| Publishes (topic payload : string)
| Disconnects (quiesce : Z)
| Emits (name : string) (data : EventData).

(** ** Package [mqtt] *)

Module mqtt.
Import GoStrings.

(** *** handler.go: the topic and payload codec *)

(** [ParseTopic] returns [(device, outlet, nil)] or [("", "", err)]. *)
Definition ParseTopic (topic : string) : result (string * string) :=
  let parts := Split topic "/" in
  if decide (length parts < 4) then
    Err (Errorf "invalid topic format: %s" [ArgS topic])
  else if decide (parts !!! 0 ≠ "power") then
    Err (Errorf "topic does not start with 'power': %s" [ArgS topic])
  else if decide (parts !!! 2 ≠ "outlets") then
    Err (Errorf "invalid topic structure: %s" [ArgS topic])
  else
    let device := parts !!! 1 in
    let outlet := parts !!! 3 in
    if decide (device = "" ∨ outlet = "") then
      Err (Errorf "empty device or outlet in topic: %s" [ArgS topic])
    else Ok (device, outlet).

(** [fmt.Sprintf("power/%s/outlets/%s/set", device, outlet)]. *)
Definition MakeCommandTopic (device outlet : string) : string :=
  "power/" +:+ device +:+ "/outlets/" +:+ outlet +:+ "/set".

Section Payload.
Context `{Unicode}.

Definition ParsePayload (payload : string) : string :=
  let payload := TrimSpace payload in
  if decide (payload = "0") then "OFF"
  else if decide (payload = "1") then "ON"
  else payload.

Definition StatusToPayload (status : string) : string :=
  let status := ToUpper (TrimSpace status) in
  if decide (status = "OFF") then "0"
  else if decide (status = "ON") then "1"
  else status.
End Payload.

(** *** client.go

    The fields [client] and [connected] of [Client]; the callbacks, the
    mutex and the context are not read by the bodies below.  The handlers
    that [Connect] installs run later, on the session's own goroutine. *)

Record ClientOptions := {
  optServer : string;
  optPort : Z;
  optClientID : string;
  optUsername : string;
  optPassword : string
}.

Record Client := {
  client : option ClientOptions;   (* [nil] until [Connect] creates it *)
  connected : bool
}.

Definition NewClient : Client := {| client := None; connected := false |}.

Definition Connect (w : World) (c : Client) (cfg : config.Config)
  : option error * Client * list Action :=
  if decide (config.MQTTServer cfg = "") then
    (Some (Errorf "MQTT server not configured" []), c, [])
  else
    match config.GetPassword w cfg with
    | Err err =>
        (Some (Errorf "failed to decrypt password: %w" [ArgW err]), c, [])
    | Ok password =>
        let clientID := "go-powercontrol-" +:+ newUUID w in
        let opts :=
          {| optServer := config.MQTTServer cfg;
             optPort := config.ServerPort cfg;
             optClientID := clientID;
             optUsername := config.Username cfg;
             optPassword := password |} in
        let c := {| client := Some opts; connected := connected c |} in
        let calls :=
          [Connects (optServer opts) (optPort opts) clientID
             (optUsername opts) password] in
        match connectToken w with
        | TokenPending => (Some (Errorf "connection timeout" []), c, calls)
        | TokenFailed err =>
            (Some (Errorf "connection failed: %w" [ArgW err]), c, calls)
        | TokenDone =>
            (None, {| client := client c; connected := true |}, calls)
        end
    end.

Definition Subscribe (w : World) (c : Client) (topic : string)
  : option error * list Action :=
  match client c with
  | None => (Some (Errorf "client not initialized" []), [])
  | Some _ =>
      match subscribeToken w with
      | TokenPending => (Some (Errorf "subscribe timeout" []), [Subscribes topic])
      | TokenFailed err =>
          (Some (Errorf "subscribe failed: %w" [ArgW err]), [Subscribes topic])
      | TokenDone => (None, [Subscribes topic])
      end
  end.

Definition Publish (w : World) (c : Client) (topic payload : string)
  : option error * list Action :=
  match client c with
  | None => (Some (Errorf "client not initialized" []), [])
  | Some _ =>
      if negb (connected c) then
        (Some (Errorf "not connected to broker" []), [])
      else
        match publishToken w with
        | TokenPending =>
            (Some (Errorf "publish timeout" []), [Publishes topic payload])
        | TokenFailed err =>
            (Some (Errorf "publish failed: %w" [ArgW err]),
             [Publishes topic payload])
        | TokenDone => (None, [Publishes topic payload])
        end
  end.

Definition IsConnected (c : Client) : bool := connected c.

Definition Disconnect (w : World) (c : Client) : Client * list Action :=
  let calls :=
    match client c with
    | Some _ => if pahoIsConnected w then [Disconnects 250] else []
    | None => []
    end in
  ({| client := client c; connected := false |}, calls).

(** The two handlers that [Connect] installs on the session, as the session
    runs them: [callback] is [c.connectionCallback] at that moment ([None]
    for nil), given by the actions it performs; [cfg] is the configuration
    [Connect] was called with.  The error of the re-subscription is not
    looked at. *)
Definition onConnect (w : World) (c : Client)
    (callback : option (bool → list Action)) (cfg : config.Config)
  : Client * list Action :=
  let c := {| client := client c; connected := true |} in
  let called :=
    match callback with
    | Some callback => callback true
    | None => []
    end in
  let subscribed :=
    if decide (config.SubscribeString cfg ≠ "")
    then (Subscribe w c (config.SubscribeString cfg)).2
    else [] in
  (c, called ++ subscribed).

Definition onConnectionLost (c : Client)
    (callback : option (bool → list Action)) : Client * list Action :=
  let c := {| client := client c; connected := false |} in
  let called :=
    match callback with
    | Some callback => callback false
    | None => []
    end in
  (c, called).

End mqtt.

(** ** Package [app]: the coordinator *)

Module app.
Import GoStrings models.

Record App := {
  mqttClient : mqtt.Client;
  deviceStore : DeviceStore.t;
  messageLog : MessageLog.t;
  config : option config.Config    (* [nil] until [Startup] or [SaveSettings] *)
}.

Definition NewApp : App :=
  {| mqttClient := mqtt.NewClient;
     deviceStore := DeviceStore.NewDeviceStore;
     messageLog := MessageLog.NewMessageLog 1000;
     config := None |}.

Definition setClient (a : App) (c : mqtt.Client) : App :=
  {| mqttClient := c; deviceStore := deviceStore a;
     messageLog := messageLog a; config := config a |}.

Definition setStore (a : App) (s : DeviceStore.t) : App :=
  {| mqttClient := mqttClient a; deviceStore := s;
     messageLog := messageLog a; config := config a |}.

Definition setLog (a : App) (l : MessageLog.t) : App :=
  {| mqttClient := mqttClient a; deviceStore := deviceStore a;
     messageLog := l; config := config a |}.

Definition setConfig (a : App) (cfg : config.Config) : App :=
  {| mqttClient := mqttClient a; deviceStore := deviceStore a;
     messageLog := messageLog a; config := Some cfg |}.

(** [None] is a panic: dereferencing a [nil] [a.config]. *)
Definition connectMQTT (w : World) (a : App)
  : option (option error * App * list Action) :=
  cfg ← config a;
  match mqtt.Connect w (mqttClient a) cfg with
  | (Some err, c, calls) => Some (Some err, setClient a c, calls)
  | (None, c, calls) =>
      let a := setClient a c in
      match mqtt.Subscribe w c (config.SubscribeString cfg) with
      | (Some err, calls') => Some (Some err, a, calls ++ calls')
      | (None, calls') => Some (None, a, calls ++ calls')
      end
  end.

Section Handlers.
Context `{Unicode}.

(** The message callback.  [tLog] and [tStore] are the instants read by
    [AddMessage] and by [Add]; [log.Printf] is not modelled. *)
Definition handleMQTTMessage (a : App) (topic payload : string)
    (tLog tStore : Time) : option (App * list Action) :=
  l ← MessageLog.AddMessage (messageLog a) MessageReceived topic payload tLog;
  let a := setLog a l in
  let emitted := [Emits "message:new" (DataMessage "Recv" topic payload)] in
  match mqtt.ParseTopic topic with
  | Err _ => Some (a, emitted)
  | Ok (device, outlet) =>
      let status := mqtt.ParsePayload payload in
      let deviceOutlet :=
        {| DeviceName := device; OutletNumber := outlet;
           Status := status; LastUpdate := zeroTime |} in
      let a := setStore a (DeviceStore.Add (deviceStore a) deviceOutlet tStore) in
      Some (a, emitted ++ [Emits "device:update" (DataDevice deviceOutlet)])
  end.

Definition SendCommand (w : World) (a : App)
    (deviceName outletNumber state : string) (tLog : Time)
  : option (option error * App * list Action) :=
  let topic := mqtt.MakeCommandTopic deviceName outletNumber in
  let payload := mqtt.StatusToPayload state in
  match mqtt.Publish w (mqttClient a) topic payload with
  | (Some err, calls) =>
      Some (Some (Errorf "failed to send command: %w" [ArgW err]), a, calls)
  | (None, calls) =>
      l ← MessageLog.AddMessage (messageLog a) MessageSent topic payload tLog;
      Some (None, setLog a l,
            calls ++ [Emits "message:new" (DataMessage "Send" topic payload)])
  end.
End Handlers.

Definition GetConnectionStatus (a : App) : bool :=
  mqtt.IsConnected (mqttClient a).

Definition GetMessages (a : App) : list MQTTMessage :=
  MessageLog.GetAll (messageLog a).

Definition SaveSettings (w : World) (a : App)
    (username password server : string) (port : Z) (subscribeString : string)
  : option (option error * App * list Action) :=
  let cfg :=
    {| config.Username := username; config.PasswordHash := "";
       config.MQTTServer := server; config.ServerPort := port;
       config.SubscribeString := subscribeString |} in
  match config.SetPassword w cfg password with
  | (_, Some err) =>
      Some (Some (Errorf "failed to encrypt password: %w" [ArgW err]), a, [])
  | (cfg, None) =>
      match config.Validate cfg with
      | (_, Some err) =>
          Some (Some (Errorf "invalid configuration: %w" [ArgW err]), a, [])
      | (cfg, None) =>
          match config.Save w cfg with
          | (_, Some err) =>
              Some (Some (Errorf "failed to save config: %w" [ArgW err]), a, [])
          | (cfg, None) =>
              let a := setConfig a cfg in
              let '(c, calls) := mqtt.Disconnect w (mqttClient a) in
              let a := setClient a c in
              let a := setStore a (DeviceStore.Clear (deviceStore a)) in
              '(err, a, calls') ← connectMQTT w a;
              match err with
              | Some err =>
                  Some (Some (Errorf "failed to connect: %w" [ArgW err]), a,
                        calls ++ calls')
              | None => Some (None, a, calls ++ calls')
              end
          end
      end
  end.

Definition Disconnect (w : World) (a : App) : App * list Action :=
  let '(c, calls) := mqtt.Disconnect w (mqttClient a) in
  (setClient a c, calls).

Definition ClearLog (a : App) : App * list Action :=
  (setLog a (MessageLog.Clear (messageLog a)), [Emits "log:cleared" DataNone]).

(** The connection callback. *)
Definition handleConnectionStatus (connected : bool) : list Action :=
  [Emits "connection:status" (DataBool connected)].

Definition IsConfigEmpty (a : App) : bool :=
  match config a with
  | None => true
  | Some cfg => config.IsEmpty cfg
  end.

End app.

(** * Properties *)

(** ** Vocabulary of the statements *)

Section Vocabulary.
Import GoStrings models.

(** The shape [ParseTopic] accepts: [power/<device>/outlets/<outlet>]
    followed by any number of further segments. *)
Definition acceptedShape (topic device outlet : string) : Prop :=
  device ≠ "" ∧ outlet ≠ "" ∧ free_of "/" device ∧ free_of "/" outlet ∧
  ∃ rest, Forall (free_of "/") rest ∧
    topic = Join ("power" :: device :: "outlets" :: outlet :: rest) "/".

(** A sequence of appends: the entries as [AddMessage] receives them, oldest
    first, each with the instant its call reads. *)
Fixpoint appendAll (l : MessageLog.t) (entries : list MQTTMessage)
  : option MessageLog.t :=
  match entries with
  | [] => Some l
  | e :: entries' =>
      l' ← MessageLog.AddMessage l (Direction e) (Topic e) (Payload e)
             (Timestamp e);
      appendAll l' entries'
  end.

(** Appends and clears in any order. *)
Inductive LogOp :=
| OpAdd (e : MQTTMessage)
| OpClear.

Fixpoint runLog (l : MessageLog.t) (ops : list LogOp) : option MessageLog.t :=
  match ops with
  | [] => Some l
  | OpAdd e :: ops' =>
      l' ← MessageLog.AddMessage l (Direction e) (Topic e) (Payload e)
             (Timestamp e);
      runLog l' ops'
  | OpClear :: ops' => runLog (MessageLog.Clear l) ops'
  end.

(** The entries appended since the last clear, oldest first. *)
Definition sinceClear (ops : list LogOp) : list MQTTMessage :=
  foldl (λ entries op,
           match op with
           | OpAdd e => entries ++ [e]
           | OpClear => []
           end) [] ops.

(** The identity of an outlet record. *)
Definition identity (d : DeviceOutlet) : string * string :=
  (DeviceName d, OutletNumber d).

(** [x] may stand before [y] in a sorted result: the sorting loops would not
    exchange them. *)
Definition keyLe (x y : DeviceOutlet) : Prop := outOfOrder x y = false.

(** Ascending order of (device name, outlet number), each compared as byte
    strings. *)
Definition identityLe (x y : DeviceOutlet) : Prop :=
  String.le (DeviceName x) (DeviceName y) ∧
  (DeviceName x = DeviceName y → String.le (OutletNumber x) (OutletNumber y)).

(** The record [Add] stores for [d]: [d] with the instant of the call. *)
Definition stamped (d : DeviceOutlet) (now : Time) : DeviceOutlet :=
  {| DeviceName := DeviceName d; OutletNumber := OutletNumber d;
     Status := Status d; LastUpdate := now |}.

(** What [Get] returns for a missing key. *)
Definition zeroOutlet : DeviceOutlet :=
  {| DeviceName := ""; OutletNumber := ""; Status := "";
     LastUpdate := zeroTime |}.

(** The record [d] is in the store, under some key. *)
Definition stored (s : DeviceStore.t) (d : DeviceOutlet) : Prop :=
  ∃ key, DeviceStore.devices s !! key = Some d.

(** The stores the program can build: [NewDeviceStore], then [Add] and
    [Clear] in any order. *)
Inductive reachable : DeviceStore.t → Prop :=
| reachable_new : reachable DeviceStore.NewDeviceStore
| reachable_Add s device now :
    reachable s → reachable (DeviceStore.Add s device now)
| reachable_Clear s : reachable s → reachable (DeviceStore.Clear s).

(** [sub] occurs in [s] when case is ignored the way [Filter] ignores it:
    after [strings.ToLower] on both. *)
Definition containsFold `{Unicode} (s sub : string) : Prop :=
  ∃ before after, ToLower s = before +:+ ToLower sub +:+ after.

(** *** The sorting loops by structural recursion

    [bubbleMin x l] is one run of the inner loop with [x] in slot [i] and
    [l] behind it: what ends up in slot [i], and what is left behind it.
    [selectSort n l] is [n] runs of the outer loop on [l]. *)
Fixpoint bubbleMin (x : DeviceOutlet) (l : list DeviceOutlet)
  : DeviceOutlet * list DeviceOutlet :=
  match l with
  | [] => (x, [])
  | y :: l' =>
      if outOfOrder x y
      then let '(m, rest) := bubbleMin y l' in (m, x :: rest)
      else let '(m, rest) := bubbleMin x l' in (m, y :: rest)
  end.

Fixpoint selectSort (n : nat) (l : list DeviceOutlet) : list DeviceOutlet :=
  match n, l with
  | S n', x :: l' => let '(m, rest) := bubbleMin x l' in m :: selectSort n' rest
  | _, _ => l
  end.

(** *** Concrete values for the examples *)

Definition outletRecord (name outlet status : string) (at_ : Time)
  : DeviceOutlet :=
  {| DeviceName := name; OutletNumber := outlet; Status := status;
     LastUpdate := at_ |}.

(** "office-strip" outlet 2 reported OFF at instant 10, then outlet 1
    reported ON at instant 20. *)
Definition exampleStore : DeviceStore.t :=
  DeviceStore.Add
    (DeviceStore.Add DeviceStore.NewDeviceStore
       (outletRecord "office-strip" "2" "OFF" zeroTime) 10%Z)
    (outletRecord "office-strip" "1" "ON" zeroTime) 20%Z.

(** A world in which every collaborator succeeds. *)
Definition exampleWorld : World :=
  {| EncryptPassword := λ plaintext, Ok ("sealed:" +:+ plaintext);
     DecryptPassword := λ _, Ok "secret";
     getConfigPath := Ok "/home/user/.config/go-mqtt-power-control/config.json";
     WriteFile := λ _, None;
     newUUID := "6ba7b810-9dad-11d1-80b4-00c04fd430c8";
     pahoIsConnected := true;
     connectToken := TokenDone;
     subscribeToken := TokenDone;
     publishToken := TokenDone |}.

(** A coordinator whose store holds the two example records, and one whose
    client has a session that is not connected at the moment. *)
Definition exampleApp : app.App := app.setStore app.NewApp exampleStore.

Definition offlineApp : app.App :=
  app.setClient exampleApp
    {| mqtt.client :=
         Some {| mqtt.optServer := "broker.local"; mqtt.optPort := 1883;
                 mqtt.optClientID := "go-powercontrol-1";
                 mqtt.optUsername := "user"; mqtt.optPassword := "secret" |};
       mqtt.connected := false |}.

(** The error with which [Publish] turns a call down before it reaches the
    broker. *)
Definition refusal (c : mqtt.Client) : error :=
  match mqtt.client c with
  | None => Errorf "client not initialized" []
  | Some _ => Errorf "not connected to broker" []
  end.

(** [SaveSettings] gets past its three early returns: the password is
    sealed, the port is in range, the configuration file is written. *)
Definition settingsAccepted (w : World) (password : string) (port : Z) : bool :=
  is_Ok (EncryptPassword w password) &&
  bool_decide (1 ≤ port ≤ 65535)%Z &&
  match getConfigPath w with
  | Ok configPath => if WriteFile w configPath is None then true else false
  | Err _ => false
  end.

(** What can happen to the coordinator, in any order: an inbound message,
    a command, new settings, a disconnect, a clearing of the log; each with
    the world and the instants it meets. *)
Inductive AppOp :=
| Inbound (topic payload : string) (tLog tStore : Time)
| Command (w : World) (deviceName outletNumber state : string) (tLog : Time)
| Settings (w : World) (username password server : string) (port : Z)
    (subscribeString : string)
| Disconnected (w : World)
| LogCleared.

Fixpoint runApp `{Unicode} (a : app.App) (ops : list AppOp) : option app.App :=
  match ops with
  | [] => Some a
  | op :: ops' =>
      a' ← match op with
           | Inbound topic payload tLog tStore =>
               fst <$> app.handleMQTTMessage a topic payload tLog tStore
           | Command w deviceName outletNumber state tLog =>
               (λ r, r.1.2) <$>
                 app.SendCommand w a deviceName outletNumber state tLog
           | Settings w username password server port subscribeString =>
               (λ r, r.1.2) <$>
                 app.SaveSettings w a username password server port
                   subscribeString
           | Disconnected w => Some (app.Disconnect w a).1
           | LogCleared => Some (app.ClearLog a).1
           end;
      runApp a' ops'
  end.

(** What every state of the coordinator satisfies: the log has the capacity
    it was made with and is within it, and the store is one that [Add] and
    [Clear] build. *)
Definition steady (a : app.App) : Prop :=
  MessageLog.maxSize (app.messageLog a) = 1000%Z ∧
  (Z.of_nat (MessageLog.Count (app.messageLog a)) ≤ 1000)%Z ∧
  reachable (app.deviceStore a).

(** *** crypto.go

    What Go's packages promise of the primitives: base64 decodes what it
    encoded and encodes only the empty input to the empty string; a GCM
    opens what it sealed under the same nonce, and its nonces have 12
    bytes. *)
Class PrimitivesLaws `{crypto.Primitives} : Prop := {
  DecodeString_EncodeToString data :
    crypto.DecodeString (crypto.EncodeToString data) = Ok data;
  EncodeToString_empty data : crypto.EncodeToString data = "" → data = "";
  Open_Seal block gcm nonce plaintext :
    crypto.NewGCM block = Ok gcm →
    crypto.Open gcm nonce (crypto.Seal gcm nonce plaintext) = Ok plaintext;
  NonceSize_GCM block gcm :
    crypto.NewGCM block = Ok gcm → crypto.NonceSize gcm = 12
}.

(** A world whose password sealing is crypto.go on the machine [m]. *)
Definition cryptoWorld `{crypto.Primitives} (m : crypto.Machine) (w : World)
  : World :=
  {| EncryptPassword := crypto.EncryptPassword m;
     DecryptPassword := crypto.DecryptPassword m;
     getConfigPath := getConfigPath w;
     WriteFile := WriteFile w;
     newUUID := newUUID w;
     pahoIsConnected := pahoIsConnected w;
     connectToken := connectToken w;
     subscribeToken := subscribeToken w;
     publishToken := publishToken w |}.

(** Stand-ins for the primitives that satisfy the laws, for the examples:
    the "cipher" leaves the text as it is. *)
Definition plainPrimitives : crypto.Primitives :=
  {| crypto.Block := unit;
     crypto.Sum256 := λ _, "key";
     crypto.NewCipher := λ _, Ok tt;
     crypto.NewGCM := λ _,
       Ok {| crypto.NonceSize := 12;
             crypto.Seal := λ _ plaintext, plaintext;
             crypto.Open := λ _ ciphertext, Ok ciphertext |};
     crypto.EncodeToString := λ data, data;
     crypto.DecodeString := λ text, Ok text;
     crypto.HardwareAddrString := λ addr, addr |}.

Definition exampleMachine : crypto.Machine :=
  {| crypto.Hostname := Ok "workstation";
     crypto.Interfaces := Ok [""; "mac"];
     crypto.randError := None;
     crypto.randByte := λ _, "n"%char |}.

End Vocabulary.

(** ** Byte strings *)

Section StringFacts.
Import GoStrings.

Lemma app_nil_string_l (s : string) : "" +:+ s = s.
Proof. reflexivity. Qed.

Lemma app_cons_string (c : ascii) (s t : string) :
  String c s +:+ t = String c (s +:+ t).
Proof. reflexivity. Qed.

Lemma app_nil_string_r (s : string) : s +:+ "" = s.
Proof.
  induction s as [|c s IH]; [reflexivity|].
  rewrite app_cons_string. by rewrite IH.
Qed.

Lemma app_assoc_string (s t u : string) : (s +:+ t) +:+ u = s +:+ (t +:+ u).
Proof.
  induction s as [|c s IH]; [reflexivity|].
  rewrite !app_cons_string. by rewrite IH.
Qed.

Lemma app_length_string (s t : string) :
  String.length (s +:+ t) = String.length s + String.length t.
Proof.
  induction s as [|c s IH]; [reflexivity|].
  rewrite app_cons_string. simpl. by rewrite IH.
Qed.

(** Cancelling a common suffix. *)
Lemma app_inv_tail_string (s t u : string) : s +:+ u = t +:+ u → s = t.
Proof.
  revert t. induction s as [|c s IH]; intros [|d t] Heq.
  - reflexivity.
  - apply (f_equal String.length) in Heq.
    rewrite app_nil_string_l, app_cons_string in Heq. simpl in Heq.
    rewrite app_length_string in Heq. lia.
  - apply (f_equal String.length) in Heq.
    rewrite app_nil_string_l, app_cons_string in Heq. simpl in Heq.
    rewrite app_length_string in Heq. lia.
  - rewrite !app_cons_string in Heq. injection Heq as -> Heq.
    f_equal. by apply IH.
Qed.

Lemma Split_not_nil (s : string) (sep : ascii) : Split s sep ≠ [].
Proof.
  destruct s as [|c s]; simpl; [done|].
  case_decide; [done|]. by destruct (Split s sep).
Qed.

Lemma Split_free (s : string) (sep : ascii) :
  free_of sep s → Split s sep = [s].
Proof.
  induction s as [|c s IH]; simpl; [done|].
  intros [Hc Hs]. rewrite decide_False by done. by rewrite IH.
Qed.

(** The first separator ends the first piece. *)
Lemma Split_app (a b : string) (sep : ascii) :
  free_of sep a → Split (a +:+ String sep b) sep = a :: Split b sep.
Proof.
  induction a as [|c a IH]; simpl.
  - intros _. by rewrite decide_True.
  - intros [Hc Ha]. rewrite decide_False by done. by rewrite IH.
Qed.

Lemma Split_pieces_free (s : string) (sep : ascii) :
  Forall (free_of sep) (Split s sep).
Proof.
  induction s as [|c s IH]; simpl.
  - by repeat constructor.
  - case_decide as Hc.
    + by constructor.
    + destruct (Split s sep) as [|piece pieces]; [by repeat constructor|].
      inversion_clear IH. by repeat constructor.
Qed.

Lemma Join_cons (e : string) (rest : list string) (sep : string) :
  rest ≠ [] → Join (e :: rest) sep = e +:+ sep +:+ Join rest sep.
Proof. by destruct rest. Qed.

(** Joining the pieces gives the string back. *)
Lemma Join_Split (s : string) (sep : ascii) :
  Join (Split s sep) (String sep "") = s.
Proof.
  induction s as [|c s IH]; [reflexivity|].
  pose proof (Split_not_nil s sep) as Hne. simpl Split.
  case_decide as Hc.
  - subst c. rewrite Join_cons by done. by rewrite IH.
  - destruct (Split s sep) as [|piece pieces]; [done|].
    destruct pieces as [|piece' pieces].
    + simpl in *. by rewrite IH.
    + rewrite Join_cons by done. rewrite Join_cons in IH by done.
      rewrite app_cons_string. by rewrite IH.
Qed.

(** Pieces without separator are recovered from their join. *)
Lemma Split_Join (pieces : list string) (sep : ascii) :
  pieces ≠ [] → Forall (free_of sep) pieces →
  Split (Join pieces (String sep "")) sep = pieces.
Proof.
  induction pieces as [|e rest IH]; [done|].
  intros _ Hfree. inversion_clear Hfree as [|?? He Hrest].
  destruct rest as [|e' rest].
  - simpl. by apply Split_free.
  - rewrite Join_cons by done. rewrite app_cons_string, app_nil_string_l.
    rewrite Split_app by done. by rewrite IH.
Qed.

End StringFacts.

(** ** The topic codec *)

Section TopicCodec.
Import GoStrings mqtt.

(** [ParseTopic] in terms of the pieces of the topic: it looks at the first
    four and at nothing behind them. *)
Lemma ParseTopic_Ok_iff (topic device outlet : string) :
  ParseTopic topic = Ok (device, outlet) ↔
  device ≠ "" ∧ outlet ≠ "" ∧
  ∃ rest, Split topic "/" = "power" :: device :: "outlets" :: outlet :: rest.
Proof.
  unfold ParseTopic.
  destruct (Split topic "/") as [|p0 [|p1 [|p2 [|p3 rest]]]] eqn:Hparts;
    repeat case_decide; simpl in *; try lia;
    (split; [intros ? | intros (? & ? & ? & ?)]); simplify_eq; try tauto; eauto.
  split_and!; [tauto..|eauto].
Qed.

Lemma ParseTopic_Err_iff (topic : string) :
  (∃ err, ParseTopic topic = Err err) ↔
  ¬ ∃ device outlet, ParseTopic topic = Ok (device, outlet).
Proof.
  destruct (ParseTopic topic) as [[device outlet]|err].
  - split; [intros [err [=]] | intros []; eauto].
  - split; [intros _ (device & outlet & [=]) | eauto].
Qed.

Lemma acceptedShape_iff (topic device outlet : string) :
  acceptedShape topic device outlet ↔
  device ≠ "" ∧ outlet ≠ "" ∧
  ∃ rest, Split topic "/" = "power" :: device :: "outlets" :: outlet :: rest.
Proof.
  unfold acceptedShape. split.
  - intros (Hd & Ho & Hfd & Hfo & rest & Hrest & ->).
    split_and!; [done..|]. exists rest.
    apply Split_Join; [done|]. repeat constructor; simpl; try done.
  - intros (Hd & Ho & rest & Hsplit).
    pose proof (Split_pieces_free topic "/") as Hfree.
    rewrite Hsplit in Hfree.
    apply Forall_cons in Hfree as [_ Hfree].
    apply Forall_cons in Hfree as [Hfd Hfree].
    apply Forall_cons in Hfree as [_ Hfree].
    apply Forall_cons in Hfree as [Hfo Hfree].
    split_and!; [done..|]. exists rest. split; [done|].
    by rewrite <- Hsplit, Join_Split.
Qed.

(** C1, as the code has it: [ParseTopic] succeeds exactly on the topics made
    of at least four slash-separated segments of which the first is "power",
    the third is "outlets" and the second and fourth are not empty; it
    returns the second and the fourth and ignores the segments behind them.
    Every other topic is rejected with an error. *)
Theorem ParseTopic_accepts_exactly (topic : string) :
  (∀ device outlet,
     ParseTopic topic = Ok (device, outlet) ↔ acceptedShape topic device outlet) ∧
  ((∃ err, ParseTopic topic = Err err) ↔
   ¬ ∃ device outlet, acceptedShape topic device outlet).
Proof.
  split.
  - intros device outlet.
    by rewrite ParseTopic_Ok_iff, acceptedShape_iff.
  - rewrite ParseTopic_Err_iff. split; intros Hno (device & outlet & Hshape);
      apply Hno; exists device, outlet.
    + by rewrite ParseTopic_Ok_iff, <- acceptedShape_iff.
    + by rewrite acceptedShape_iff, <- ParseTopic_Ok_iff.
Qed.

(** C1 as stated fails: a command topic has five segments and is decoded,
    not rejected. *)
Lemma ParseTopic_accepts_command_topic :
  length (Split "power/office-strip/outlets/1/set" "/") = 5 ∧
  ParseTopic "power/office-strip/outlets/1/set" = Ok ("office-strip", "1").
Proof. split; reflexivity. Qed.

(** X1: a command topic is decoded to the identity it was made from, for a
    device and an outlet that are not empty and hold no slash: [ParseTopic]
    reads the second and fourth segment and ignores the "set" behind them. *)
Lemma ParseTopic_MakeCommandTopic (device outlet : string) :
  device ≠ "" → outlet ≠ "" → free_of "/" device → free_of "/" outlet →
  ParseTopic (MakeCommandTopic device outlet) = Ok (device, outlet).
Proof.
  intros Hd Ho Hfd Hfo. apply ParseTopic_Ok_iff. split_and!; [done..|].
  exists ["set"]. unfold MakeCommandTopic.
  change ("power/" +:+ device +:+ "/outlets/" +:+ outlet +:+ "/set")
    with ("power" +:+ String "/" (device +:+ String "/"
            ("outlets" +:+ String "/" (outlet +:+ String "/" "set")))).
  rewrite !Split_app by (simpl; done). by rewrite Split_free.
Qed.

(** C5: the status-shaped topic of a non-empty, slash-free device and outlet,
    that is the command topic without its "/set", decodes to exactly that
    device and outlet. *)
Theorem ParseTopic_status_round_trip (device outlet statusTopic : string) :
  device ≠ "" → outlet ≠ "" → free_of "/" device → free_of "/" outlet →
  MakeCommandTopic device outlet = statusTopic +:+ "/set" →
  statusTopic = "power/" +:+ device +:+ "/outlets/" +:+ outlet ∧
  ParseTopic statusTopic = Ok (device, outlet).
Proof.
  intros Hd Ho Hfd Hfo Hcmd.
  assert (statusTopic = "power/" +:+ device +:+ "/outlets/" +:+ outlet) as ->.
  { symmetry. apply (app_inv_tail_string _ _ "/set").
    rewrite <- Hcmd. unfold MakeCommandTopic.
    by rewrite !app_assoc_string. }
  split; [done|].
  apply ParseTopic_Ok_iff. split_and!; [done..|]. exists [].
  change ("power/" +:+ device +:+ "/outlets/" +:+ outlet)
    with ("power" +:+ String "/" (device +:+ String "/"
            ("outlets" +:+ String "/" outlet))).
  rewrite !Split_app by (simpl; done). by rewrite Split_free.
Qed.

Lemma ParseTopic_status_round_trip_witness :
  "power/office-strip/outlets/1" = "power/" +:+ "office-strip" +:+ "/outlets/" +:+ "1" ∧
  ParseTopic "power/office-strip/outlets/1" = Ok ("office-strip", "1").
Proof.
  apply (ParseTopic_status_round_trip "office-strip" "1"
           "power/office-strip/outlets/1"); simpl; try done.
Defined.

End TopicCodec.

(** ** The payload codec *)

Section PayloadCodec.
Import GoStrings mqtt.

(** The byte-wise functions agree with themselves on ASCII input. *)
Lemma asciiOnly_ASCII : @UnicodeASCII asciiOnly.
Proof. by split. Qed.

Section AnyUnicode.
Context `{Unicode}.

Lemma ParsePayload_cases (payload : string) :
  (TrimSpace payload = "0" → ParsePayload payload = "OFF") ∧
  (TrimSpace payload = "1" → ParsePayload payload = "ON") ∧
  (TrimSpace payload ≠ "0" → TrimSpace payload ≠ "1" →
   ParsePayload payload = TrimSpace payload).
Proof.
  unfold ParsePayload. split_and!; intros; repeat case_decide; congruence.
Qed.

Lemma StatusToPayload_cases (status : string) :
  (ToUpper (TrimSpace status) = "OFF" → StatusToPayload status = "0") ∧
  (ToUpper (TrimSpace status) = "ON" → StatusToPayload status = "1") ∧
  (ToUpper (TrimSpace status) ≠ "OFF" → ToUpper (TrimSpace status) ≠ "ON" →
   StatusToPayload status = ToUpper (TrimSpace status)).
Proof.
  unfold StatusToPayload. split_and!; intros; repeat case_decide; congruence.
Qed.

(** C4, as the code has it.  The payloads "0" and "1" survive decoding and
    encoding.  For every string, decoding gives the trimmed string unless
    that is "0" or "1" (which become "OFF" and "ON"), and encoding gives the
    upper-cased trimmed string unless that is "OFF" or "ON" (which become
    "0" and "1"). *)
Theorem payload_codec `{!UnicodeASCII} :
  (∀ p, p = "0" ∨ p = "1" → StatusToPayload (ParsePayload p) = p) ∧
  (∀ s, ParsePayload s =
        if decide (TrimSpace s = "0") then "OFF"
        else if decide (TrimSpace s = "1") then "ON"
        else TrimSpace s) ∧
  (∀ s, TrimSpace s ≠ "0" → TrimSpace s ≠ "1" → ParsePayload s = TrimSpace s) ∧
  (∀ s, StatusToPayload s =
        if decide (ToUpper (TrimSpace s) = "OFF") then "0"
        else if decide (ToUpper (TrimSpace s) = "ON") then "1"
        else ToUpper (TrimSpace s)) ∧
  (∀ s, ToUpper (TrimSpace s) ≠ "OFF" → ToUpper (TrimSpace s) ≠ "ON" →
        StatusToPayload s = ToUpper (TrimSpace s)).
Proof.
  split_and!.
  - intros p [-> | ->].
    + assert (ParsePayload "0" = "OFF") as ->.
      { apply ParsePayload_cases. by rewrite TrimSpace_ascii. }
      apply StatusToPayload_cases.
      by rewrite TrimSpace_ascii, ToUpper_ascii.
    + assert (ParsePayload "1" = "ON") as ->.
      { apply ParsePayload_cases. by rewrite TrimSpace_ascii. }
      apply StatusToPayload_cases.
      by rewrite TrimSpace_ascii, ToUpper_ascii.
  - done.
  - intros s. apply ParsePayload_cases.
  - done.
  - intros s. apply StatusToPayload_cases.
Qed.

End AnyUnicode.

Lemma payload_codec_witness :
  @StatusToPayload asciiOnly (@ParsePayload asciiOnly "1") = "1" ∧
  @ParsePayload asciiOnly " dim " = "dim" ∧
  @StatusToPayload asciiOnly " dim " = "DIM".
Proof.
  destruct (@payload_codec asciiOnly asciiOnly_ASCII)
    as (Hround & _ & Hdecode & _ & Hencode).
  split_and!.
  - apply Hround. by right.
  - by apply (Hdecode " dim ").
  - by apply (Hencode " dim ").
Defined.

(** C4 as stated fails on strings other than "0" and "1" that the codec
    recognises: " 1" decodes to "ON", not to its trimmed form "1", and "ON"
    encodes to "1", not to its upper-cased trimmed form "ON". *)
Lemma payload_codec_recognised_strings :
  (" 1" ≠ "" ∧ " 1" ≠ "0" ∧ " 1" ≠ "1" ∧
   @ParsePayload asciiOnly " 1" = "ON" ∧ @TrimSpace asciiOnly " 1" = "1") ∧
  ("ON" ≠ "" ∧ "ON" ≠ "0" ∧ "ON" ≠ "1" ∧
   @StatusToPayload asciiOnly "ON" = "1" ∧
   @ToUpper asciiOnly (@TrimSpace asciiOnly "ON") = "ON").
Proof. by split_and!. Qed.

End PayloadCodec.

(** ** The message log *)

Section MessageLogFacts.
Import models models.MessageLog.

Lemma take_app_take {A} (n : nat) (l1 l2 : list A) :
  take n (l1 ++ take n l2) = take n (l1 ++ l2).
Proof.
  rewrite !take_app, take_take. f_equal. f_equal. lia.
Qed.

(** One append on a log of non-negative capacity: the entry goes in front
    and the list is cut at the capacity. *)
Lemma AddMessage_spec (l : t) (direction : MessageDirection)
    (topic payload : string) (now : Time) :
  (0 ≤ maxSize l)%Z →
  AddMessage l direction topic payload now =
  Some {| messages :=
            take (Z.to_nat (maxSize l))
              ({| Direction := direction; Topic := topic; Payload := payload;
                  Timestamp := now |} :: messages l);
          maxSize := maxSize l |}.
Proof.
  intros Hcap. unfold AddMessage. cbn [app].
  case_decide as Hlen.
  - by rewrite decide_False by lia.
  - rewrite take_ge; [done|]. lia.
Qed.

(** On a log of negative capacity every append panics; [NewMessageLog]
    makes no such log. *)
Lemma AddMessage_panics (l : t) (direction : MessageDirection)
    (topic payload : string) (now : Time) :
  (maxSize l < 0)%Z → AddMessage l direction topic payload now = None.
Proof.
  intros Hcap. unfold AddMessage.
  rewrite decide_True by lia. by rewrite decide_True.
Qed.

Lemma NewMessageLog_maxSize (maxSize0 : Z) :
  maxSize (NewMessageLog maxSize0) =
  if decide (maxSize0 ≤ 0)%Z then 1000%Z else maxSize0.
Proof. reflexivity. Qed.

Lemma NewMessageLog_maxSize_pos (maxSize0 : Z) :
  (0 < maxSize (NewMessageLog maxSize0))%Z.
Proof. rewrite NewMessageLog_maxSize. case_decide; lia. Qed.

(** Any number of appends: the log holds the newest entries, newest first,
    as many as the capacity allows, and keeps its capacity. *)
Lemma appendAll_spec (entries : list MQTTMessage) (l : t) :
  (0 ≤ maxSize l)%Z →
  appendAll l entries =
  Some {| messages :=
            if entries is [] then messages l
            else take (Z.to_nat (maxSize l)) (reverse entries ++ messages l);
          maxSize := maxSize l |}.
Proof.
  revert l. induction entries as [|e entries IH]; intros l Hcap.
  - by destruct l.
  - cbn [appendAll]. rewrite AddMessage_spec by done. cbn [mbind option_bind].
    rewrite IH by done. cbn [messages maxSize]. f_equal. f_equal.
    rewrite reverse_cons, <- app_assoc. cbn [app].
    destruct e as [d tp p ts]. cbn [Direction Topic Payload Timestamp].
    destruct entries as [|e' entries]; [done|].
    by rewrite take_app_take.
Qed.

(** The bound also holds when the log is cleared in between. *)
Lemma runLog_bounded (ops : list LogOp) (l : t) :
  (0 ≤ maxSize l)%Z → (Z.of_nat (Count l) ≤ maxSize l)%Z →
  ∃ l', runLog l ops = Some l' ∧ maxSize l' = maxSize l ∧
        (Z.of_nat (Count l') ≤ maxSize l')%Z.
Proof.
  revert l. induction ops as [|[e|] ops IH]; intros l Hcap Hlen.
  - by exists l.
  - cbn [runLog]. rewrite AddMessage_spec by done. cbn [mbind option_bind].
    match goal with
    | |- context [runLog ?l1 ops] =>
        destruct (IH l1) as (l' & Hrun & Hmax & Hbound)
    end.
    + done.
    + unfold Count. cbn [messages maxSize]. rewrite length_take. lia.
    + by exists l'.
  - cbn [runLog].
    destruct (IH (Clear l)) as (l' & Hrun & Hmax & Hbound); [done| |by exists l'].
    unfold Count, Clear. cbn. lia.
Qed.

(** C3: whatever capacity the log was made with and whatever is appended to
    it, in any number, the appends return a log, its length is at most the
    capacity, the capacity is the one fixed at construction, and [GetAll]
    gives the entries newest first: the reversed sequence of what was
    appended, cut at the capacity. *)
Theorem MessageLog_bounded_newest_first
    (maxSize0 : Z) (entries : list MQTTMessage) :
  ∃ l, appendAll (NewMessageLog maxSize0) entries = Some l ∧
       maxSize l = maxSize (NewMessageLog maxSize0) ∧
       (Z.of_nat (Count l) ≤ maxSize l)%Z ∧
       GetAll l = take (Z.to_nat (maxSize l)) (reverse entries).
Proof.
  pose proof (NewMessageLog_maxSize_pos maxSize0) as Hpos.
  eexists. split; [apply appendAll_spec; lia|].
  unfold Count, GetAll. cbn [messages maxSize].
  change (messages (NewMessageLog maxSize0)) with (@nil MQTTMessage).
  rewrite app_nil_r.
  destruct entries as [|e entries].
  - rewrite reverse_nil, take_nil. cbn [length]. split_and!; [done|lia|done].
  - rewrite length_take. split_and!; [done|lia|done].
Qed.

(** C10: a capacity argument that is zero or negative gives the capacity
    1000, a positive one gives itself; and that capacity is the effective
    one: after any appends the log holds as many entries as were appended,
    up to it. *)
Theorem NewMessageLog_capacity (maxSize0 : Z) :
  ((maxSize0 ≤ 0)%Z → maxSize (NewMessageLog maxSize0) = 1000%Z) ∧
  ((0 < maxSize0)%Z → maxSize (NewMessageLog maxSize0) = maxSize0) ∧
  GetAll (NewMessageLog maxSize0) = [] ∧
  ∀ entries, ∃ l,
    appendAll (NewMessageLog maxSize0) entries = Some l ∧
    maxSize l = maxSize (NewMessageLog maxSize0) ∧
    Count l = length entries `min` Z.to_nat (maxSize l).
Proof.
  pose proof (NewMessageLog_maxSize_pos maxSize0) as Hpos.
  rewrite NewMessageLog_maxSize in *.
  split_and!; try (intros; case_decide; [done|lia]); try (intros; case_decide; [lia|done]).
  - done.
  - intros entries. eexists. split; [apply appendAll_spec; cbn; lia|].
    unfold Count. cbn [messages maxSize]. split; [done|].
    destruct entries as [|e entries]; [done|].
    rewrite app_nil_r, length_take, length_reverse. lia.
Qed.

End MessageLogFacts.

(** ** The order of the sorted results *)

Section Order.
Import GoStrings models.

Lemma gtString_false (a b : string) : gtString a b = false ↔ String.le a b.
Proof.
  unfold gtString, String.le, String.leb.
  destruct (String.compare a b); simpl; intuition congruence.
Qed.

Lemma keyLe_iff (x y : DeviceOutlet) :
  keyLe x y ↔
  String.le (DeviceName x) (DeviceName y) ∧
  (DeviceName x = DeviceName y → String.le (OutletNumber x) (OutletNumber y)).
Proof.
  unfold keyLe, outOfOrder.
  rewrite orb_false_iff, andb_false_iff, bool_decide_eq_false.
  rewrite !gtString_false.
  destruct (decide (DeviceName x = DeviceName y)); tauto.
Qed.

#[global] Instance keyLe_trans : Transitive keyLe.
Proof.
  intros x y z. rewrite !keyLe_iff. intros [Hxy Hxy'] [Hyz Hyz'].
  split; [by etrans|].
  intros Hxz. rewrite Hxz in Hxy.
  assert (DeviceName y = DeviceName z) as Heq by (by apply (anti_symm String.le)).
  etrans; [apply Hxy'; congruence | by apply Hyz'].
Qed.

#[global] Instance keyLe_total : Total keyLe.
Proof.
  intros x y. rewrite !keyLe_iff.
  destruct (decide (DeviceName x = DeviceName y)) as [Heq|Hne].
  - rewrite Heq.
    destruct (total String.le (OutletNumber x) (OutletNumber y)); [left|right];
      done.
  - destruct (total String.le (DeviceName x) (DeviceName y)); [left|right];
      (split; [done|congruence]).
Qed.

(** Two records that may each stand before the other have one identity. *)
Lemma keyLe_antisym (x y : DeviceOutlet) :
  keyLe x y → keyLe y x → identity x = identity y.
Proof.
  rewrite !keyLe_iff. intros [Hxy Hxy'] [Hyx Hyx'].
  assert (DeviceName x = DeviceName y) as Heq by (by apply (anti_symm String.le)).
  unfold identity. f_equal; [done|].
  apply (anti_symm String.le); auto.
Qed.

Lemma outOfOrder_true (x y : DeviceOutlet) : outOfOrder x y = true → keyLe y x.
Proof.
  intros Hout. destruct (total keyLe x y) as [Hle|Hle]; [|done].
  unfold keyLe in Hle. congruence.
Qed.

End Order.

(** ** The sorting loops *)

Section Sorting.
Import GoStrings models.

Lemma lookup_slot {A} (pre rest : list A) (x : A) :
  (pre ++ x :: rest) !! length pre = Some x.
Proof. by apply list_lookup_middle. Qed.

Lemma insert_slot {A} (pre rest : list A) (x z : A) :
  <[length pre:=z]> (pre ++ x :: rest) = pre ++ z :: rest.
Proof.
  rewrite insert_app_r_alt by lia. by rewrite Nat.sub_diag.
Qed.

Lemma lookup_later_slot {A} (pre done todo : list A) (x y : A) :
  (pre ++ x :: done ++ y :: todo) !! S (length pre + length done) = Some y.
Proof.
  replace (pre ++ x :: done ++ y :: todo) with ((pre ++ x :: done) ++ y :: todo)
    by (by rewrite <- app_assoc).
  apply list_lookup_middle. rewrite length_app. simpl. lia.
Qed.

Lemma insert_later_slot {A} (pre done todo : list A) (x y z : A) :
  <[S (length pre + length done):=z]> (pre ++ x :: done ++ y :: todo) =
  pre ++ x :: done ++ z :: todo.
Proof.
  replace (pre ++ x :: done ++ y :: todo) with ((pre ++ x :: done) ++ y :: todo)
    by (by rewrite <- app_assoc).
  replace (S (length pre + length done)) with (length (pre ++ x :: done))
    by (rewrite length_app; simpl; lia).
  rewrite insert_slot. by rewrite <- app_assoc.
Qed.

(** The inner loop, with slot [i] holding [x], the slots it has passed
    holding [done] and the slots ahead holding [todo]. *)
Lemma sortInner_bubbleMin (todo pre done : list DeviceOutlet) (x : DeviceOutlet) :
  sortInner (length todo) (length pre) (S (length pre + length done))
    (pre ++ x :: done ++ todo) =
  pre ++ (bubbleMin x todo).1 :: done ++ (bubbleMin x todo).2.
Proof.
  revert done x. induction todo as [|y todo IH]; intros done x.
  - done.
  - cbn [length sortInner bubbleMin].
    rewrite lookup_slot, lookup_later_slot.
    destruct (outOfOrder x y).
    + rewrite insert_slot, insert_later_slot.
      specialize (IH (done ++ [x]) y).
      rewrite length_app, <- app_assoc in IH. cbn [length app] in IH.
      replace (S (length pre + (length done + 1)))
        with (S (S (length pre + length done))) in IH by lia.
      rewrite IH. destruct (bubbleMin y todo) as [m rest]. cbn [fst snd].
      by rewrite <- app_assoc.
    + specialize (IH (done ++ [y]) x).
      rewrite length_app, <- app_assoc in IH. cbn [length app] in IH.
      replace (S (length pre + (length done + 1)))
        with (S (S (length pre + length done))) in IH by lia.
      rewrite IH. destruct (bubbleMin x todo) as [m rest]. cbn [fst snd].
      by rewrite <- app_assoc.
Qed.

Lemma bubbleMin_length (l : list DeviceOutlet) (x : DeviceOutlet) :
  length (bubbleMin x l).2 = length l.
Proof.
  revert x. induction l as [|y l IH]; intros x; [done|].
  cbn [bubbleMin]. destruct (outOfOrder x y).
  - specialize (IH y). destruct (bubbleMin y l). simpl in *. by rewrite IH.
  - specialize (IH x). destruct (bubbleMin x l). simpl in *. by rewrite IH.
Qed.

Lemma bubbleMin_perm (l : list DeviceOutlet) (x : DeviceOutlet) :
  (bubbleMin x l).1 :: (bubbleMin x l).2 ≡ₚ x :: l.
Proof.
  revert x. induction l as [|y l IH]; intros x; [done|].
  cbn [bubbleMin]. destruct (outOfOrder x y).
  - specialize (IH y). destruct (bubbleMin y l) as [m rest]. simpl in *.
    by rewrite (Permutation_swap x m rest), IH.
  - specialize (IH x). destruct (bubbleMin x l) as [m rest]. simpl in *.
    rewrite (Permutation_swap y m rest), IH. apply Permutation_swap.
Qed.

(** What the inner loop leaves in slot [i] may stand before everything that
    it leaves behind. *)
Lemma bubbleMin_least (l : list DeviceOutlet) (x : DeviceOutlet) :
  keyLe (bubbleMin x l).1 x ∧ Forall (keyLe (bubbleMin x l).1) (bubbleMin x l).2.
Proof.
  revert x. induction l as [|y l IH]; intros x.
  - split; [|done]. by destruct (total keyLe x x).
  - cbn [bubbleMin]. destruct (outOfOrder x y) eqn:Hxy.
    + apply outOfOrder_true in Hxy.
      destruct (IH y) as [Hm Hrest]. destruct (bubbleMin y l) as [m rest].
      simpl in *. assert (keyLe m x) by (by etrans).
      split; [done|]. by constructor.
    + destruct (IH x) as [Hm Hrest]. destruct (bubbleMin x l) as [m rest].
      simpl in *. split; [done|]. constructor; [|done]. by etrans.
Qed.

(** The outer loop, with the slots before [i] holding [pre]. *)
Lemma sortOuter_selectSort (rest pre : list DeviceOutlet) :
  sortOuter (length rest) (length pre) (pre ++ rest) =
  pre ++ selectSort (length rest) rest.
Proof.
  remember (length rest) as n eqn:Hn. revert rest pre Hn.
  induction n as [|n IH]; intros rest pre Hn; [by destruct rest|].
  destruct rest as [|x rest]; [done|]. injection Hn as Hn.
  cbn [sortOuter selectSort].
  replace (length (pre ++ x :: rest) - S (length pre)) with (length rest)
    by (rewrite length_app; simpl; lia).
  pose proof (sortInner_bubbleMin rest pre [] x) as Hinner.
  cbn [length app] in Hinner. rewrite Nat.add_0_r in Hinner. rewrite Hinner.
  pose proof (bubbleMin_length rest x) as Hlen.
  destruct (bubbleMin x rest) as [m rest']. cbn [fst snd] in *.
  specialize (IH rest' (pre ++ [m])).
  rewrite length_app, <- app_assoc in IH. cbn [length app] in IH.
  replace (length pre + 1) with (S (length pre)) in IH by lia.
  rewrite IH by lia. by rewrite <- app_assoc.
Qed.

Lemma sortDevices_selectSort (devices : list DeviceOutlet) :
  sortDevices devices = selectSort (length devices) devices.
Proof. apply (sortOuter_selectSort devices []). Qed.

Lemma selectSort_perm (n : nat) (l : list DeviceOutlet) : selectSort n l ≡ₚ l.
Proof.
  revert l. induction n as [|n IH]; intros l; [done|].
  destruct l as [|x l]; [done|]. cbn [selectSort].
  pose proof (bubbleMin_perm l x) as Hperm.
  destruct (bubbleMin x l) as [m rest]. cbn [fst snd] in *.
  by rewrite IH.
Qed.

Lemma selectSort_sorted (n : nat) (l : list DeviceOutlet) :
  (length l ≤ n)%nat → StronglySorted keyLe (selectSort n l).
Proof.
  revert l. induction n as [|n IH]; intros l Hlen.
  - destruct l; [constructor | simpl in Hlen; lia].
  - destruct l as [|x l]; [constructor|]. cbn [selectSort].
    pose proof (bubbleMin_least l x) as [_ Hleast].
    pose proof (bubbleMin_length l x) as Hlen'.
    destruct (bubbleMin x l) as [m rest]. cbn [fst snd] in *.
    constructor.
    + apply IH. simpl in Hlen. lia.
    + by rewrite selectSort_perm.
Qed.

(** The loops rearrange the slice, and leave it in ascending order of
    (device name, outlet number). *)
Lemma sortDevices_perm (devices : list DeviceOutlet) :
  sortDevices devices ≡ₚ devices.
Proof. rewrite sortDevices_selectSort. apply selectSort_perm. Qed.

Lemma sortDevices_sorted (devices : list DeviceOutlet) :
  StronglySorted keyLe (sortDevices devices).
Proof. rewrite sortDevices_selectSort. by apply selectSort_sorted. Qed.

Lemma StronglySorted_filter_keyLe (P : DeviceOutlet → Prop)
    `{∀ d, Decision (P d)} (l : list DeviceOutlet) :
  StronglySorted keyLe l → StronglySorted keyLe (filter P l).
Proof.
  induction 1 as [|x l Hsorted IH Hx]; [constructor|].
  rewrite filter_cons. case_decide; [|done].
  constructor; [done|].
  apply Forall_forall. intros y [_ Hy]%list_elem_of_filter.
  by eapply Forall_forall in Hx.
Qed.

End Sorting.

(** ** The device store *)

Section DeviceStoreFacts.
Import GoStrings models models.DeviceStore.

(** Every record sits under the key made from its own identity. *)
Lemma reachable_keyed (s : t) :
  reachable s →
  ∀ key d, devices s !! key = Some d →
           key = makeKey (DeviceName d) (OutletNumber d).
Proof.
  induction 1 as [|s device now Hs IH|s Hs IH]; intros key d; cbn.
  - by rewrite lookup_empty.
  - rewrite lookup_insert. case_decide as Hkey.
    + intros [= <-]. by rewrite <- Hkey.
    + apply IH.
  - by rewrite lookup_empty.
Qed.

(** At most one record per identity. *)
Lemma stored_identity_inj (s : t) (d1 d2 : DeviceOutlet) :
  reachable s → stored s d1 → stored s d2 →
  identity d1 = identity d2 → d1 = d2.
Proof.
  intros Hs [k1 H1] [k2 H2] [= Hname Houtlet].
  pose proof (reachable_keyed s Hs k1 d1 H1) as Hk1.
  pose proof (reachable_keyed s Hs k2 d2 H2) as Hk2.
  rewrite Hname, Houtlet in Hk1. congruence.
Qed.

Lemma ranges_elem_of (s : t) (visited : list DeviceOutlet) (d : DeviceOutlet) :
  ranges s visited → d ∈ visited ↔ stored s d.
Proof.
  unfold ranges, stored. intros ->. rewrite list_elem_of_fmap. split.
  - intros ([key d'] & -> & Hin). exists key. by apply elem_of_map_to_list.
  - intros [key Hkey]. exists (key, d). split; [done|].
    by apply elem_of_map_to_list.
Qed.

Lemma ranges_exists (s : t) : ∃ visited, ranges s visited.
Proof. exists (map_to_list (devices s)).*2. by unfold ranges. Qed.

Lemma ranges_length (s : t) (visited : list DeviceOutlet) :
  ranges s visited → length visited = Count s.
Proof.
  unfold ranges, Count. intros ->.
  by rewrite length_fmap, length_map_to_list.
Qed.

(** Two sorted arrangements of records of a reachable store are one. *)
Lemma sorted_arrangement_unique (s : t) (l1 l2 : list DeviceOutlet) :
  reachable s → (∀ d, d ∈ l1 → stored s d) → (∀ d, d ∈ l2 → stored s d) →
  StronglySorted keyLe l1 → StronglySorted keyLe l2 → l1 ≡ₚ l2 → l1 = l2.
Proof.
  intros Hs Hl1 Hl2. apply StronglySorted_unique_strong.
  intros x1 x2 Hx1 Hx2 H12 H21.
  apply (stored_identity_inj s); auto using keyLe_antisym.
Qed.

(** [GetAll] returns the records of the store, each once, in ascending
    order. *)
Lemma GetAll_sound (s : t) (all : list DeviceOutlet) :
  GetAll s all →
  StronglySorted keyLe all ∧ (∀ d, d ∈ all ↔ stored s d) ∧
  length all = Count s.
Proof.
  intros (visited & Hvisited & ->). unfold GetAllFrom. split_and!.
  - apply sortDevices_sorted.
  - intros d. rewrite sortDevices_perm. by apply ranges_elem_of.
  - rewrite sortDevices_perm. by apply ranges_length.
Qed.

Lemma GetAll_exists (s : t) : ∃ all, GetAll s all.
Proof.
  destruct (ranges_exists s) as [visited Hvisited].
  by exists (GetAllFrom visited), visited.
Qed.

(** Whatever order the map is visited in, [GetAll] returns one sequence. *)
Lemma GetAll_deterministic (s : t) (all all' : list DeviceOutlet) :
  reachable s → GetAll s all → GetAll s all' → all = all'.
Proof.
  intros Hs Hall Hall'.
  destruct (GetAll_sound s all Hall) as (Hsorted & Hmem & _).
  destruct (GetAll_sound s all' Hall') as (Hsorted' & Hmem' & _).
  apply (sorted_arrangement_unique s); try done.
  - intros d. apply Hmem.
  - intros d. apply Hmem'.
  - destruct Hall as (visited & Hvisited & ->).
    destruct Hall' as (visited' & Hvisited' & ->).
    unfold GetAllFrom, ranges in *. rewrite !sortDevices_perm.
    by rewrite Hvisited, Hvisited'.
Qed.

Lemma prefix_iff (sub s : string) :
  String.prefix sub s = true ↔ ∃ after, s = sub +:+ after.
Proof.
  revert s. induction sub as [|c sub IH]; intros s.
  - split; [intros _; by exists s | intros _; by destruct s].
  - destruct s as [|c' s]; simpl.
    + split; [done | by intros [after [=]]].
    + destruct (Ascii.ascii_dec c c') as [->|Hne].
      * rewrite IH. split; intros [after Hafter]; exists after.
        -- by rewrite Hafter.
        -- by injection Hafter.
      * split; [done | intros [after [=]]; congruence].
Qed.

(** [Contains] finds exactly the strings in which [substr] occurs. *)
Lemma Contains_iff (s substr : string) :
  Contains s substr = true ↔ ∃ before after, s = before +:+ substr +:+ after.
Proof.
  induction s as [|c s IH]; cbn [Contains]; rewrite orb_true_iff, prefix_iff.
  - split.
    + intros [[after Hafter]|[=]]. by exists "", after.
    + intros (before & after & Heq). left. exists after.
      by destruct before.
  - rewrite IH. split.
    + intros [[after Hafter]|(before & after & Hs)].
      * by exists "", after.
      * exists (String c before), after. by rewrite Hs.
    + intros (before & after & Heq). destruct before as [|c' before].
      * left. by exists after.
      * right. injection Heq as -> Hs. by exists before, after.
Qed.

Section Filtering.
Context `{Unicode}.

(** The test of [Filter]'s loop is containment with case ignored, in the
    device name, the outlet number or the status. *)
Lemma matches_iff (searchText : string) (d : DeviceOutlet) :
  matches (ToLower searchText) d ↔
  containsFold (DeviceName d) searchText ∨
  containsFold (OutletNumber d) searchText ∨
  containsFold (Status d) searchText.
Proof.
  unfold matches, containsFold.
  rewrite !orb_True, !Is_true_true, !Contains_iff. tauto.
Qed.

(** In whatever order [Filter] visits the map, it returns the matching
    records in the order in which [GetAll] returns them. *)
Lemma FilterFrom_GetAll (s : t) (searchText : string)
    (visited all : list DeviceOutlet) :
  reachable s → ranges s visited → GetAll s all →
  FilterFrom searchText visited =
  filter (λ d, matches (ToLower searchText) d) all.
Proof.
  intros Hs Hvisited Hall.
  destruct (GetAll_sound s all Hall) as (Hsorted & Hmem & _).
  unfold FilterFrom. apply (sorted_arrangement_unique s); try done.
  - intros d. rewrite sortDevices_perm.
    intros [_ Hd]%list_elem_of_filter. by eapply ranges_elem_of.
  - intros d [_ Hd]%list_elem_of_filter. by apply Hmem.
  - apply sortDevices_sorted.
  - by apply StronglySorted_filter_keyLe.
  - rewrite sortDevices_perm.
    destruct Hall as (visited' & Hvisited' & ->).
    unfold GetAllFrom, ranges in *.
    by rewrite sortDevices_perm, Hvisited, Hvisited'.
Qed.

(** C8: on every store the program can build, [Filter] with the empty
    string returns the sequence [GetAll] returns; with a non-empty search
    text it returns exactly the records whose device name, outlet number or
    status contains the text, case ignored, in ascending order of (device
    name, outlet number), the order in which [GetAll] returns them. *)
Theorem Filter_spec (s : t) (all : list DeviceOutlet) :
  reachable s → GetAll s all →
  (∀ result, Filter s "" result ↔ result = all) ∧
  (∀ searchText result, searchText ≠ "" →
     Filter s searchText result ↔
     result = filter (λ d, matches (ToLower searchText) d) all) ∧
  (∀ searchText d,
     d ∈ filter (λ d, matches (ToLower searchText) d) all ↔
     stored s d ∧
     (containsFold (DeviceName d) searchText ∨
      containsFold (OutletNumber d) searchText ∨
      containsFold (Status d) searchText)) ∧
  (∀ searchText,
     StronglySorted keyLe (filter (λ d, matches (ToLower searchText) d) all)) ∧
  StronglySorted keyLe all ∧
  (∀ d, d ∈ all ↔ stored s d).
Proof.
  intros Hs Hall.
  destruct (GetAll_sound s all Hall) as (Hsorted & Hmem & _).
  split_and!; try done.
  - intros result. unfold Filter. rewrite decide_True by done. split.
    + intros Hresult. by apply (GetAll_deterministic s).
    + by intros ->.
  - intros searchText result Hne. unfold Filter. rewrite decide_False by done.
    split.
    + intros (visited & Hvisited & ->). by apply (FilterFrom_GetAll s).
    + intros ->. destruct (ranges_exists s) as [visited Hvisited].
      exists visited. split; [done|]. symmetry. by apply (FilterFrom_GetAll s).
  - intros searchText d.
    by rewrite list_elem_of_filter, matches_iff, Hmem, (comm and).
  - intros searchText. by apply StronglySorted_filter_keyLe.
Qed.

End Filtering.

Lemma exampleStore_GetAll :
  GetAll exampleStore
    [outletRecord "office-strip" "1" "ON" 20%Z;
     outletRecord "office-strip" "2" "OFF" 10%Z].
Proof.
  exists [outletRecord "office-strip" "1" "ON" 20%Z;
          outletRecord "office-strip" "2" "OFF" 10%Z].
  split; [|reflexivity].
  unfold ranges, exampleStore, Add, NewDeviceStore. cbn [devices].
  rewrite map_to_list_insert by done.
  rewrite map_to_list_insert by done.
  by rewrite map_to_list_empty.
Qed.

Lemma Filter_spec_witness :
  (∀ result,
     @Filter asciiOnly exampleStore "" result ↔
     result = [outletRecord "office-strip" "1" "ON" 20%Z;
               outletRecord "office-strip" "2" "OFF" 10%Z]) ∧
  (∀ result,
     @Filter asciiOnly exampleStore "oN" result ↔
     result = [outletRecord "office-strip" "1" "ON" 20%Z]).
Proof.
  destruct (@Filter_spec asciiOnly exampleStore _
              ltac:(repeat constructor) exampleStore_GetAll)
    as (Hempty & Hsearch & _).
  split; [exact Hempty|].
  intros result. by apply (Hsearch "oN" result).
Defined.

(** Two identities with one key: adding a record of the second after a
    record of the first leaves the store as if the first had never been
    added. *)
Lemma Add_Add_same_key (s : t) (d1 d2 : DeviceOutlet) (now1 now2 : Time) :
  makeKey (DeviceName d1) (OutletNumber d1) =
  makeKey (DeviceName d2) (OutletNumber d2) →
  Add (Add s d1 now1) d2 now2 = Add s d2 now2.
Proof.
  intros Hkey. unfold Add. cbn. f_equal. rewrite Hkey.
  apply insert_insert_eq.
Qed.

Lemma Get_Add (s : t) (d : DeviceOutlet) (now : Time) (name outlet : string) :
  makeKey name outlet = makeKey (DeviceName d) (OutletNumber d) →
  Get (Add s d now) name outlet =
  (outletRecord (DeviceName d) (OutletNumber d) (Status d) now, true).
Proof.
  intros Hkey. unfold Get, Add. cbn. rewrite Hkey.
  by rewrite lookup_insert_eq.
Qed.

(** Records of two identities with one key are never in the store
    together. *)
Lemma same_key_never_coexist (s : t) (d1 d2 : DeviceOutlet) :
  reachable s → stored s d1 → stored s d2 →
  makeKey (DeviceName d1) (OutletNumber d1) =
  makeKey (DeviceName d2) (OutletNumber d2) →
  d1 = d2.
Proof.
  intros Hs [k1 H1] [k2 H2] Hkey.
  pose proof (reachable_keyed s Hs k1 d1 H1) as Hk1.
  pose proof (reachable_keyed s Hs k2 d2 H2) as Hk2.
  congruence.
Qed.

(** C9: the key of a record is its device name, a colon and its outlet
    number, and two distinct identities can have one key: ("a:1", "2") and
    ("a", "1:2") do.  An [Add] for the second replaces the record of the
    first (the store is as if the first had not been added, and a [Get] for
    the first identity returns the record of the second), and in no store
    the program can build are records of both identities present. *)
Theorem makeKey_not_injective :
  (∀ name outlet, makeKey name outlet = name +:+ ":" +:+ outlet) ∧
  makeKey "a:1" "2" = makeKey "a" "1:2" ∧
  ("a:1", "2") ≠ ("a", "1:2") ∧
  (∀ s d1 d2 now1 now2,
     identity d1 = ("a:1", "2") → identity d2 = ("a", "1:2") →
     Add (Add s d1 now1) d2 now2 = Add s d2 now2 ∧
     Get (Add (Add s d1 now1) d2 now2) "a:1" "2" =
       (outletRecord "a" "1:2" (Status d2) now2, true)) ∧
  (∀ s d1 d2,
     reachable s → stored s d1 → stored s d2 →
     identity d1 = ("a:1", "2") → identity d2 = ("a", "1:2") → False).
Proof.
  split_and!; try done.
  - intros s d1 d2 now1 now2 [= Hn1 Ho1] [= Hn2 Ho2]. split.
    + apply Add_Add_same_key. by rewrite Hn1, Ho1, Hn2, Ho2.
    + rewrite Get_Add by (by rewrite Hn2, Ho2). by rewrite Hn2, Ho2.
  - intros s d1 d2 Hs H1 H2 [= Hn1 Ho1] [= Hn2 Ho2].
    assert (d1 = d2) as Heq.
    { apply (same_key_never_coexist s); try done.
      by rewrite Hn1, Ho1, Hn2, Ho2. }
    subst d2. rewrite Hn1 in Hn2. discriminate.
Qed.

End DeviceStoreFacts.

(** ** The coordinator *)

Section Coordinator.
Import GoStrings models app.

(** *** Inbound messages *)

Section Inbound.
Context `{Unicode}.

(** C6: when the topic of an inbound message does not decode, the handler
    returns having put one Received entry in front of the message log (the
    log is then cut at its capacity, so on a log that was not full nothing
    is lost) and having emitted the one event for it; the device store, and
    the rest of the coordinator, are as they were. *)
Theorem handleMQTTMessage_undecodable (a : App) (topic payload : string)
    (tLog tStore : Time) (err : error) :
  mqtt.ParseTopic topic = Err err →
  (0 < MessageLog.maxSize (messageLog a))%Z →
  let entry :=
    {| Direction := MessageReceived; Topic := topic; Payload := payload;
       Timestamp := tLog |} in
  ∃ a',
    handleMQTTMessage a topic payload tLog tStore =
      Some (a', [Emits "message:new" (DataMessage "Recv" topic payload)]) ∧
    deviceStore a' = deviceStore a ∧
    mqttClient a' = mqttClient a ∧
    config a' = config a ∧
    MessageLog.maxSize (messageLog a') = MessageLog.maxSize (messageLog a) ∧
    GetMessages a' =
      entry :: take (Z.to_nat (MessageLog.maxSize (messageLog a)) - 1)
                 (GetMessages a) ∧
    ((Z.of_nat (length (GetMessages a)) < MessageLog.maxSize (messageLog a))%Z →
     GetMessages a' = entry :: GetMessages a).
Proof.
  intros Hdecode Hcap entry. unfold handleMQTTMessage.
  rewrite AddMessage_spec by lia. cbn [mbind option_bind].
  rewrite Hdecode. eexists. split; [reflexivity|].
  unfold GetMessages, MessageLog.GetAll. cbn.
  destruct (Z.to_nat (MessageLog.maxSize (messageLog a))) as [|n] eqn:Hn;
    [lia|].
  cbn [take]. rewrite Nat.sub_1_r. cbn [Nat.pred].
  split_and!; try done.
  intros Hroom. rewrite take_ge; [done|]. lia.
Qed.

End Inbound.

Lemma handleMQTTMessage_undecodable_witness :
  ∃ a',
    @handleMQTTMessage asciiOnly exampleApp "power/office-strip/1" "1" 30%Z 31%Z =
      Some (a', [Emits "message:new"
                   (DataMessage "Recv" "power/office-strip/1" "1")]) ∧
    deviceStore a' = exampleStore ∧
    GetMessages a' =
      [{| Direction := MessageReceived; Topic := "power/office-strip/1";
          Payload := "1"; Timestamp := 30%Z |}].
Proof.
  destruct (@handleMQTTMessage_undecodable asciiOnly exampleApp
              "power/office-strip/1" "1" 30%Z 31%Z _ eq_refl eq_refl)
    as (a' & Hrun & Hstore & _ & _ & _ & _ & Hlog).
  exists a'. split_and!; [exact Hrun | exact Hstore | by apply Hlog].
Defined.

(** *** Outbound commands *)

(** A client that is not connected turns every publish down at once: the
    broker session is not called. *)
Lemma Publish_not_connected (w : World) (c : mqtt.Client)
    (topic payload : string) :
  mqtt.connected c = false →
  mqtt.Publish w c topic payload = (Some (refusal c), []).
Proof.
  intros Hoff. unfold mqtt.Publish, refusal.
  destruct (mqtt.client c); [|done]. by rewrite Hoff.
Qed.

(** A publish reaches the broker only from a connected client. *)
Lemma Publish_calls_broker (w : World) (c : mqtt.Client)
    (topic payload : string) :
  (mqtt.Publish w c topic payload).2 ≠ [] →
  mqtt.connected c = true ∧ is_Some (mqtt.client c).
Proof.
  unfold mqtt.Publish. destruct (mqtt.client c); [|done].
  destruct (mqtt.connected c); [by eauto | done].
Qed.

Section Outbound.
Context `{Unicode}.

(** C2: while the client is not connected, [Publish] returns its
    not-connected error at once, without calling the broker.  The code has
    no typed errors; the refusal reads "not connected to broker" when the
    client has a session and "client not initialized" when [Connect] never
    made one, and both are returned before anything is sent.  [SendCommand]
    returns that error wrapped, appends no entry to the message log and
    leaves the coordinator as it was; nothing is published and no event is
    emitted. *)
Theorem SendCommand_not_connected (w : World) (a : App)
    (deviceName outletNumber state : string) (tLog : Time) :
  mqtt.connected (mqttClient a) = false →
  (∀ topic payload,
     mqtt.Publish w (mqttClient a) topic payload =
       (Some (refusal (mqttClient a)), [])) ∧
  (is_Some (mqtt.client (mqttClient a)) →
   refusal (mqttClient a) = Errorf "not connected to broker" []) ∧
  (mqtt.client (mqttClient a) = None →
   refusal (mqttClient a) = Errorf "client not initialized" []) ∧
  ∃ a',
    SendCommand w a deviceName outletNumber state tLog =
      Some (Some (Errorf "failed to send command: %w"
                    [ArgW (refusal (mqttClient a))]), a', []) ∧
    a' = a ∧
    GetMessages a' = GetMessages a.
Proof.
  intros Hoff. split_and!.
  - intros topic payload. by apply Publish_not_connected.
  - unfold refusal. by intros [opts ->].
  - unfold refusal. by intros ->.
  - exists a. unfold SendCommand.
    by rewrite Publish_not_connected.
Qed.

End Outbound.

Lemma SendCommand_not_connected_witness :
  mqtt.Publish exampleWorld (mqttClient offlineApp)
    "power/office-strip/outlets/1/set" "1" =
    (Some (Errorf "not connected to broker" []), []) ∧
  @SendCommand asciiOnly exampleWorld offlineApp "office-strip" "1" "ON" 40%Z =
    Some (Some (Errorf "failed to send command: %w"
                  [ArgW (Errorf "not connected to broker" [])]),
          offlineApp, []).
Proof.
  destruct (@SendCommand_not_connected asciiOnly exampleWorld offlineApp
              "office-strip" "1" "ON" 40%Z eq_refl)
    as (Hpublish & _ & _ & a' & Hsend & -> & _).
  split; [apply Hpublish | exact Hsend].
Defined.

(** *** Settings *)

(** [Disconnect] always leaves the client not connected, and keeps its
    session handle. *)
Lemma Disconnect_connected (w : World) (c : mqtt.Client) :
  mqtt.connected (mqtt.Disconnect w c).1 = false ∧
  mqtt.client (mqtt.Disconnect w c).1 = mqtt.client c.
Proof. done. Qed.

(** After [Connect] the client is connected only if it was before or the
    new session came up. *)
Lemma Connect_connected (w : World) (c : mqtt.Client) (cfg : config.Config) :
  mqtt.connected (mqtt.Connect w c cfg).1.2 = true →
  mqtt.connected c = true ∨ connectToken w = TokenDone.
Proof.
  unfold mqtt.Connect. case_decide; [by left|].
  destruct (config.GetPassword w cfg); [|by left].
  destruct (connectToken w); cbn; auto.
Qed.

(** [connectMQTT] returns whenever there is a configuration, and touches
    neither store nor log nor configuration. *)
Lemma connectMQTT_frame (w : World) (a : App) (cfg : config.Config) :
  config a = Some cfg →
  ∃ err a' actions,
    connectMQTT w a = Some (err, a', actions) ∧
    deviceStore a' = deviceStore a ∧
    messageLog a' = messageLog a ∧
    config a' = config a ∧
    mqttClient a' = (mqtt.Connect w (mqttClient a) cfg).1.2.
Proof.
  intros Hcfg. unfold connectMQTT. rewrite Hcfg. cbn [mbind option_bind].
  destruct (mqtt.Connect w (mqttClient a) cfg) as [[[err|] c] calls].
  - by eexists _, _, _.
  - destruct (mqtt.Subscribe w c (config.SubscribeString cfg)) as [[err|] calls'];
      by eexists _, _, _.
Qed.

(** The configuration [SaveSettings] installs. *)
Lemma SaveSettings_config (w : World) (username password server : string)
    (port : Z) (subscribeString : string) :
  settingsAccepted w password port = true →
  ∃ sealed,
    EncryptPassword w password = Ok sealed ∧
    let cfg :=
      {| config.Username := username; config.PasswordHash := sealed;
         config.MQTTServer := server; config.ServerPort := port;
         config.SubscribeString :=
           if decide (subscribeString = "") then "power/#"
           else subscribeString |} in
    config.SetPassword w
      {| config.Username := username; config.PasswordHash := "";
         config.MQTTServer := server; config.ServerPort := port;
         config.SubscribeString := subscribeString |} password =
      ({| config.Username := username; config.PasswordHash := sealed;
          config.MQTTServer := server; config.ServerPort := port;
          config.SubscribeString := subscribeString |}, None) ∧
    config.Validate
      {| config.Username := username; config.PasswordHash := sealed;
         config.MQTTServer := server; config.ServerPort := port;
         config.SubscribeString := subscribeString |} = (cfg, None) ∧
    config.Save w cfg = (cfg, None).
Proof.
  unfold settingsAccepted. rewrite !andb_true_iff, bool_decide_eq_true.
  intros [[Hseal Hport] Hsave].
  destruct (EncryptPassword w password) as [sealed|] eqn:Hencrypt; [|done].
  exists sealed. split; [done|]. cbn zeta.
  unfold config.SetPassword. rewrite Hencrypt. split; [done|].
  unfold config.Save, config.Validate. cbn.
  destruct (getConfigPath w) as [configPath|]; [|done].
  destruct (WriteFile w configPath); [done|].
  rewrite !decide_False by lia.
  destruct (decide (subscribeString = "")) as [->|Hne]; cbn.
  - by rewrite decide_False by lia.
  - by rewrite decide_False by lia; rewrite decide_False by done.
Qed.

(** When the settings are turned down, [SaveSettings] returns the error
    and has done nothing. *)
Lemma SaveSettings_rejected (w : World) (a : App)
    (username password server : string) (port : Z) (subscribeString : string) :
  settingsAccepted w password port = false →
  ∃ err,
    SaveSettings w a username password server port subscribeString =
      Some (Some err, a, []).
Proof.
  unfold settingsAccepted, SaveSettings, config.SetPassword.
  destruct (EncryptPassword w password) as [sealed|]; [|by eexists].
  cbn [is_Ok andb]. unfold config.Validate. cbn.
  case_decide as Hport; [by eexists|].
  rewrite bool_decide_eq_true_2 by lia. cbn [andb].
  unfold config.Save, config.Validate.
  destruct (decide (subscribeString = "")); cbn;
    (destruct (getConfigPath w) as [configPath|]; [|by eexists]);
    rewrite decide_False by lia;
    destruct (WriteFile w configPath) eqn:Hwrite; try done;
    repeat case_decide; by eexists.
Qed.

(** When the settings are accepted, [SaveSettings] is: install them,
    disconnect, clear the store, reconnect. *)
Lemma SaveSettings_accepted (w : World) (a : App)
    (username password server : string) (port : Z) (subscribeString : string) :
  settingsAccepted w password port = true →
  ∃ cfg,
    config.Username cfg = username ∧ config.MQTTServer cfg = server ∧
    config.ServerPort cfg = port ∧
    SaveSettings w a username password server port subscribeString =
      '(err, a', actions') ←
         connectMQTT w
           (setStore
              (setClient (setConfig a cfg) (mqtt.Disconnect w (mqttClient a)).1)
              (DeviceStore.Clear (deviceStore a)));
      Some (match err with
            | Some err => Some (Errorf "failed to connect: %w" [ArgW err])
            | None => None
            end, a', (mqtt.Disconnect w (mqttClient a)).2 ++ actions').
Proof.
  intros Haccepted.
  destruct (SaveSettings_config w username password server port
              subscribeString Haccepted)
    as (sealed & Hseal & Hset & Hvalidate & Hsave).
  cbn zeta in Hset, Hvalidate, Hsave.
  exists {| config.Username := username; config.PasswordHash := sealed;
            config.MQTTServer := server; config.ServerPort := port;
            config.SubscribeString :=
              if decide (subscribeString = "") then "power/#"
              else subscribeString |}.
  split_and!; [| | |unfold SaveSettings; rewrite Hset, Hvalidate, Hsave].
  4: { cbn -[connectMQTT].
       match goal with
       | |- context [connectMQTT w ?a0] =>
           destruct (connectMQTT w a0) as [[[[err|] a'] actions']|]
       end; reflexivity. }
  all: reflexivity.
Qed.

(** C7, as the code has it.  [SaveSettings] always returns and never
    changes the message log.  When the new settings are accepted (password
    sealed, port in range, file written) it installs them, disconnects the
    client, empties the device store and then reconnects: the broker calls
    begin with those of [Disconnect], the store it returns holds no record,
    and the client is connected afterwards only if the new session came up.
    When the settings are turned down it returns the error and the
    coordinator is as it was, store included. *)
Theorem SaveSettings_effect (w : World) (a : App)
    (username password server : string) (port : Z) (subscribeString : string) :
  ∃ err a' actions,
    SaveSettings w a username password server port subscribeString =
      Some (err, a', actions) ∧
    messageLog a' = messageLog a ∧
    GetMessages a' = GetMessages a ∧
    (settingsAccepted w password port = true →
       deviceStore a' = DeviceStore.NewDeviceStore ∧
       (∀ d, ¬ stored (deviceStore a') d) ∧
       (∃ cfg err' actions',
          config.Username cfg = username ∧
          config.MQTTServer cfg = server ∧
          config.ServerPort cfg = port ∧
          config a' = Some cfg ∧
          connectMQTT w
            (setStore
               (setClient (setConfig a cfg) (mqtt.Disconnect w (mqttClient a)).1)
               (DeviceStore.Clear (deviceStore a))) =
            Some (err', a', actions') ∧
          actions = (mqtt.Disconnect w (mqttClient a)).2 ++ actions') ∧
       (mqtt.connected (mqttClient a') = true → connectToken w = TokenDone)) ∧
    (settingsAccepted w password port = false →
       is_Some err ∧ a' = a ∧ actions = []).
Proof.
  destruct (settingsAccepted w password port) eqn:Haccepted.
  - destruct (SaveSettings_accepted w a username password server port
                subscribeString Haccepted)
      as (cfg & Huser & Hserver & Hport & ->).
    set (a0 := setStore _ _).
    destruct (connectMQTT_frame w a0 cfg eq_refl)
      as (err0 & a' & actions' & Hconnect & Hstore & Hlog & Hconfig & Hclient).
    rewrite Hconnect. cbn [mbind option_bind].
    eexists _, a', _. split; [reflexivity|].
    unfold GetMessages. rewrite Hlog, Hstore.
    split_and!; try done.
    intros _. split_and!; try done.
    + intros d [key Hkey]. cbn in Hkey. by rewrite lookup_empty in Hkey.
    + exists cfg, err0, actions'. by rewrite Hconfig.
    + rewrite Hclient. intros Hon.
      by destruct (Connect_connected w _ _ Hon).
  - destruct (SaveSettings_rejected w a username password server port
                subscribeString Haccepted) as [err Hrun].
    exists (Some err), a, []. by split_and!.
Qed.

Lemma SaveSettings_effect_witness :
  ∃ err a' actions,
    SaveSettings exampleWorld exampleApp "user" "secret" "broker.local" 1883
      "power/#" = Some (err, a', actions) ∧
    GetMessages a' = GetMessages exampleApp ∧
    deviceStore a' = DeviceStore.NewDeviceStore.
Proof.
  destruct (SaveSettings_effect exampleWorld exampleApp "user" "secret"
              "broker.local" 1883 "power/#")
    as (err & a' & actions & Hrun & _ & Hlog & Haccepted & _).
  exists err, a', actions. split_and!; [exact Hrun | exact Hlog |].
  by destruct (Haccepted eq_refl) as [Hstore _].
Defined.

(** C7 as stated fails when the settings are turned down: with port 0
    [SaveSettings] returns "invalid configuration" and the two records of
    the store are still there. *)
Lemma SaveSettings_invalid_port :
  SaveSettings exampleWorld exampleApp "user" "secret" "broker.local" 0
    "power/#" =
    Some (Some (Errorf "invalid configuration: %w"
                  [ArgW (Errorf "invalid server port: %d" [ArgD 0])]),
          exampleApp, []) ∧
  DeviceStore.Count (deviceStore exampleApp) = 2 ∧
  stored (deviceStore exampleApp) (outletRecord "office-strip" "1" "ON" 20%Z).
Proof.
  split_and!; [reflexivity | reflexivity |].
  exists (DeviceStore.makeKey "office-strip" "1"). reflexivity.
Qed.

End Coordinator.

(** * Further properties of the code *)

(** ** handler.go *)

Section CodecMore.
Import GoStrings mqtt.

(** The pieces of a command topic, for a device and an outlet without a
    slash. *)
Lemma Split_MakeCommandTopic (device outlet : string) :
  free_of "/" device → free_of "/" outlet →
  Split (MakeCommandTopic device outlet) "/" =
  ["power"; device; "outlets"; outlet; "set"].
Proof.
  intros Hd Ho. unfold MakeCommandTopic.
  change ("power/" +:+ device +:+ "/outlets/" +:+ outlet +:+ "/set")
    with ("power" +:+ String "/" (device +:+ String "/"
            ("outlets" +:+ String "/" (outlet +:+ String "/" "set")))).
  rewrite !Split_app by (simpl; done). by rewrite Split_free.
Qed.

(** X2: two slash-free identities with the same command topic are the same
    identity; with a slash in a name this fails, as nothing is escaped:
    ("a/outlets/b", "c") and ("a", "b/outlets/c") share their topic. *)
Theorem MakeCommandTopic_inj (device outlet device' outlet' : string) :
  (free_of "/" device → free_of "/" outlet →
   free_of "/" device' → free_of "/" outlet' →
   MakeCommandTopic device outlet = MakeCommandTopic device' outlet' →
   device = device' ∧ outlet = outlet') ∧
  MakeCommandTopic "a/outlets/b" "c" = MakeCommandTopic "a" "b/outlets/c".
Proof.
  split; [|reflexivity].
  intros Hd Ho Hd' Ho' Heq.
  apply (f_equal (λ topic, Split topic "/")) in Heq.
  rewrite !Split_MakeCommandTopic in Heq by done.
  by injection Heq.
Qed.

Section AnyUnicode.
Context `{Unicode} `{!UnicodeASCII}.

(** X3: a state that reads "ON" or "OFF" once trimmed and upper-cased is
    encoded to a payload that decodes to "ON", respectively "OFF": what is
    sent for a state is read back as that state. *)
Theorem ParsePayload_StatusToPayload (state : string) :
  ToUpper (TrimSpace state) = "ON" ∨ ToUpper (TrimSpace state) = "OFF" →
  ParsePayload (StatusToPayload state) = ToUpper (TrimSpace state).
Proof.
  intros [Hon | Hoff].
  - assert (StatusToPayload state = "1") as ->
      by (by apply StatusToPayload_cases).
    rewrite Hon. apply ParsePayload_cases. by rewrite TrimSpace_ascii.
  - assert (StatusToPayload state = "0") as ->
      by (by apply StatusToPayload_cases).
    rewrite Hoff. apply ParsePayload_cases. by rewrite TrimSpace_ascii.
Qed.

End AnyUnicode.

Lemma ParsePayload_StatusToPayload_witness :
  @ParsePayload asciiOnly (@StatusToPayload asciiOnly " on ") = "ON".
Proof.
  apply (@ParsePayload_StatusToPayload asciiOnly asciiOnly_ASCII " on ").
  by left.
Defined.

Lemma ParseTopic_MakeCommandTopic_witness :
  ParseTopic (MakeCommandTopic "office-strip" "1") = Ok ("office-strip", "1").
Proof.
  apply (ParseTopic_MakeCommandTopic "office-strip" "1");
    first [discriminate | by repeat split].
Defined.

End CodecMore.

(** ** device.go *)

Section DeviceStoreMore.
Import GoStrings models models.DeviceStore.

(** X4: [Get] after [Add].  Asked for the identity just added, or for any
    identity with the same key, [Get] returns the added record with the
    instant of the [Add]; asked for an identity with another key, it
    returns what it returned before the [Add]; after [Clear], and on a new
    store, it returns the zero record and false. *)
Theorem Get_Add_lookup (s : t) (d : DeviceOutlet) (now : Time)
    (name outlet : string) :
  Get (Add s d now) (DeviceName d) (OutletNumber d) = (stamped d now, true) ∧
  (makeKey name outlet = makeKey (DeviceName d) (OutletNumber d) →
   Get (Add s d now) name outlet = (stamped d now, true)) ∧
  (makeKey name outlet ≠ makeKey (DeviceName d) (OutletNumber d) →
   Get (Add s d now) name outlet = Get s name outlet) ∧
  Get (Clear s) name outlet = (zeroOutlet, false) ∧
  Get NewDeviceStore name outlet = (zeroOutlet, false).
Proof.
  unfold Get, Add, Clear, NewDeviceStore. cbn [devices DeviceName OutletNumber].
  split_and!.
  - by rewrite lookup_insert_eq.
  - intros ->. by rewrite lookup_insert_eq.
  - intros Hne. by rewrite lookup_insert_ne.
  - by rewrite lookup_empty.
  - by rewrite lookup_empty.
Qed.

(** X5: [Add] is an upsert: the count stays when the store already has a
    record under the key and grows by one when it has none; adding twice
    under one key counts once, and [Clear] leaves nothing. *)
Theorem Count_Add (s : t) (d d' : DeviceOutlet) (now now' : Time) :
  ((Get s (DeviceName d) (OutletNumber d)).2 = true →
   Count (Add s d now) = Count s) ∧
  ((Get s (DeviceName d) (OutletNumber d)).2 = false →
   Count (Add s d now) = S (Count s)) ∧
  (identity d' = identity d →
   Count (Add (Add s d now) d' now') = Count (Add s d now)) ∧
  Count (Clear s) = 0.
Proof.
  unfold Get, Add, Clear, Count. cbn [devices DeviceName OutletNumber].
  split_and!.
  - destruct (devices s !! _) eqn:Hkey; [|done]. intros _.
    apply map_size_insert_Some. by rewrite Hkey.
  - destruct (devices s !! _) eqn:Hkey; [done|]. intros _.
    by apply map_size_insert_None.
  - intros [= -> ->]. apply map_size_insert_Some.
    rewrite lookup_insert_eq. by eexists.
  - apply map_size_empty.
Qed.

(** Splitting at the first occurrence of a byte is unambiguous. *)
Lemma app_sep_inj (c : ascii) (a a' b b' : string) :
  free_of c a → free_of c a' →
  a +:+ String c b = a' +:+ String c b' → a = a' ∧ b = b'.
Proof.
  revert a'. induction a as [|x a IH]; intros [|x' a']; simpl.
  - intros _ _ [= ->]. done.
  - intros _ [Hx' _] [= <-]. done.
  - intros [Hx _] _ [= ->]. done.
  - intros [_ Ha] [_ Ha'] [= -> Heq].
    destruct (IH a' Ha Ha' Heq) as [-> ->]. done.
Qed.

(** X6: on device names without a colon the key identifies the identity:
    equal keys give equal names and outlets.  Records of two such
    identities therefore live side by side: an [Add] for one leaves what
    [Get] returns for the other. *)
Theorem makeKey_inj_colon_free (name outlet name' outlet' : string) :
  free_of ":" name → free_of ":" name' →
  (makeKey name outlet = makeKey name' outlet' →
   name = name' ∧ outlet = outlet') ∧
  ∀ s d now,
    identity d = (name', outlet') → (name, outlet) ≠ (name', outlet') →
    Get (Add s d now) name outlet = Get s name outlet.
Proof.
  intros Hname Hname'.
  assert (makeKey name outlet = makeKey name' outlet' →
          name = name' ∧ outlet = outlet') as Hinj.
  { unfold makeKey. change (":" +:+ outlet) with (String ":" outlet).
    change (":" +:+ outlet') with (String ":" outlet').
    by apply app_sep_inj. }
  split; [done|].
  intros s d now [= Hn Ho] Hne. unfold Get, Add. cbn [devices].
  rewrite Hn, Ho. cbn [DeviceName OutletNumber].
  rewrite lookup_insert_ne; [done|].
  intros Hkey. symmetry in Hkey. apply Hinj in Hkey as [-> ->]. done.
Qed.

Lemma makeKey_inj_colon_free_witness :
  Get (Add exampleStore (outletRecord "lab-strip" "1" "ON" zeroTime) 30%Z)
    "office-strip" "1" =
  (outletRecord "office-strip" "1" "ON" 20%Z, true).
Proof.
  destruct (makeKey_inj_colon_free "office-strip" "1" "lab-strip" "1")
    as [_ Hkeep]; [by repeat split..|].
  by rewrite (Hkeep exampleStore
                (outletRecord "lab-strip" "1" "ON" zeroTime) 30%Z).
Defined.

Lemma keyLe_identityLe (x y : DeviceOutlet) : keyLe x y ↔ identityLe x y.
Proof. apply keyLe_iff. Qed.

(** X7: the two nested loops sort: whatever slice they are given, records
    with equal identities included, they return the same records, as many
    of each, in ascending order of (device name, outlet number). *)
Theorem sortDevices_sorts (devices : list DeviceOutlet) :
  sortDevices devices ≡ₚ devices ∧
  length (sortDevices devices) = length devices ∧
  StronglySorted identityLe (sortDevices devices).
Proof.
  split_and!.
  - apply sortDevices_perm.
  - by rewrite sortDevices_perm.
  - pose proof (sortDevices_sorted devices) as Hsorted.
    induction Hsorted as [|x l Hl IH Hx]; constructor; [done|].
    eapply Forall_impl; [exact Hx|]. intros y. apply keyLe_identityLe.
Qed.

Lemma reachable_values_NoDup (s : t) :
  reachable s → NoDup (identity <$> (map_to_list (devices s)).*2).
Proof.
  intros Hs. rewrite <- list_fmap_compose.
  apply NoDup_fmap_2_strong; [|apply NoDup_map_to_list].
  intros [k d] [k' d'] Hin Hin' Hid. cbn in Hid.
  apply elem_of_map_to_list in Hin, Hin'.
  assert (d = d') as <-.
  { apply (stored_identity_inj s); [done|by exists k|by exists k'|done]. }
  f_equal.
  rewrite (reachable_keyed s Hs k d Hin).
  by rewrite (reachable_keyed s Hs k' d Hin').
Qed.

(** X8: on a store the program can build, [GetAll] lists every identity at
    most once and returns as many records as [Count] counts: exactly the
    stored records. *)
Theorem GetAll_identities_unique (s : t) (all : list DeviceOutlet) :
  reachable s → GetAll s all →
  NoDup (identity <$> all) ∧
  length all = Count s ∧
  all ≡ₚ (map_to_list (devices s)).*2.
Proof.
  intros Hs (visited & Hvisited & ->). unfold GetAllFrom, ranges in *.
  rewrite sortDevices_perm, Hvisited. split_and!.
  - by apply reachable_values_NoDup.
  - unfold Count. by rewrite length_fmap, length_map_to_list.
  - done.
Qed.

Lemma GetAll_identities_unique_witness :
  NoDup (identity <$> [outletRecord "office-strip" "1" "ON" 20%Z;
                       outletRecord "office-strip" "2" "OFF" 10%Z]) ∧
  2 = Count exampleStore.
Proof.
  destruct (GetAll_identities_unique exampleStore _
              ltac:(repeat constructor) exampleStore_GetAll)
    as (Hnodup & Hlen & _).
  split; [exact Hnodup | exact Hlen].
Defined.

Section Narrowing.
Context `{Unicode}.

Lemma Contains_trans (s t u : string) :
  (∃ before after, t = before +:+ u +:+ after) →
  Contains s t = true → Contains s u = true.
Proof.
  intros (b & a & ->). rewrite !Contains_iff.
  intros (b' & a' & ->). exists (b' +:+ b), (a +:+ a').
  by rewrite !app_assoc_string.
Qed.

(** X9: a longer search text narrows the result.  When the lower-cased
    text of one search occurs in the lower-cased text of another, the
    records of the second search are those of the first that match the
    second text, in the same order: nothing new appears. *)
Theorem Filter_narrows (s : t) (text text' : string)
    (found found' : list DeviceOutlet) :
  reachable s → text ≠ "" → text' ≠ "" →
  (∃ before after, ToLower text' = before +:+ ToLower text +:+ after) →
  Filter s text found → Filter s text' found' →
  found' = filter (λ d, matches (ToLower text') d) found ∧
  found' `sublist_of` found.
Proof.
  intros Hs Hne Hne' Hoccurs. unfold Filter.
  rewrite !decide_False by done.
  intros (visited & Hvisited & ->) (visited' & Hvisited' & ->).
  destruct (GetAll_exists s) as [all Hall].
  rewrite (FilterFrom_GetAll s text visited all) by done.
  rewrite (FilterFrom_GetAll s text' visited' all) by done.
  assert (filter (λ d, matches (ToLower text') d) all =
          filter (λ d, matches (ToLower text') d)
            (filter (λ d, matches (ToLower text) d) all)) as Heq.
  { symmetry. apply list_filter_filter_l. intros d. unfold matches.
    rewrite !orb_True, !Is_true_true.
    intros [[Hd|Hd]|Hd]; eauto using Contains_trans. }
  split; [done|]. rewrite Heq. apply sublist_filter.
Qed.

End Narrowing.

Lemma exampleStore_ranges :
  ranges exampleStore
    [outletRecord "office-strip" "1" "ON" 20%Z;
     outletRecord "office-strip" "2" "OFF" 10%Z].
Proof.
  unfold ranges, exampleStore, Add, NewDeviceStore. cbn [devices].
  rewrite map_to_list_insert by done.
  rewrite map_to_list_insert by done.
  by rewrite map_to_list_empty.
Qed.

Lemma Filter_narrows_witness :
  [outletRecord "office-strip" "1" "ON" 20%Z] `sublist_of`
  [outletRecord "office-strip" "1" "ON" 20%Z;
   outletRecord "office-strip" "2" "OFF" 10%Z].
Proof.
  refine (proj2 (@Filter_narrows asciiOnly exampleStore "O" "On" _ _
                   ltac:(repeat constructor) ltac:(done) ltac:(done)
                   _ _ _)).
  - by exists "", "n".
  - unfold Filter. rewrite decide_False by done.
    eexists. split; [apply exampleStore_ranges | reflexivity].
  - unfold Filter. rewrite decide_False by done.
    eexists. split; [apply exampleStore_ranges | reflexivity].
Defined.

End DeviceStoreMore.

(** ** message.go *)

Section MessageLogMore.
Import models models.MessageLog.

(** X10: [GetRecent] returns a prefix of what [GetAll] returns: its first
    [n] entries when [n] is between 1 and the count, and all of them when
    [n] is zero, negative or above the count.  On a log that has only been
    appended to, these are the [n] entries appended last, newest first. *)
Theorem GetRecent_newest (l : t) (n : Z) :
  GetRecent l n `prefix_of` GetAll l ∧
  ((0 < n ≤ Z.of_nat (Count l))%Z →
   GetRecent l n = take (Z.to_nat n) (GetAll l) ∧
   length (GetRecent l n) = Z.to_nat n) ∧
  ((n ≤ 0 ∨ n > Z.of_nat (Count l))%Z → GetRecent l n = GetAll l) ∧
  (∀ maxSize0 entries,
     appendAll (NewMessageLog maxSize0) entries = Some l →
     (0 < n ≤ Z.of_nat (Count l))%Z →
     GetRecent l n = take (Z.to_nat n) (reverse entries)).
Proof.
  unfold GetRecent, GetAll, Count. split_and!.
  - apply prefix_take.
  - intros Hn. rewrite decide_False by lia. split; [done|].
    rewrite length_take. lia.
  - intros Hn. rewrite decide_True by done. rewrite Nat2Z.id.
    by rewrite take_ge.
  - intros maxSize0 entries Hrun Hn. rewrite decide_False by lia.
    pose proof (NewMessageLog_maxSize_pos maxSize0) as Hpos.
    rewrite appendAll_spec in Hrun by lia. injection Hrun as <-.
    cbn [messages maxSize] in *.
    change (messages (NewMessageLog maxSize0)) with (@nil MQTTMessage) in *.
    destruct entries as [|e entries]; [cbn in Hn; lia|].
    rewrite app_nil_r in *. rewrite length_take in Hn.
    rewrite take_take. f_equal. lia.
Qed.

(** The log after some operations on a log that holds [entries] newest
    first, cut at its capacity. *)
Lemma runLog_from (ops : list LogOp) (l : t) (entries : list MQTTMessage) :
  (0 ≤ maxSize l)%Z →
  messages l = take (Z.to_nat (maxSize l)) (reverse entries) →
  runLog l ops =
  Some {| messages :=
            take (Z.to_nat (maxSize l))
              (reverse (foldl (λ entries op,
                                 match op with
                                 | OpAdd e => entries ++ [e]
                                 | OpClear => []
                                 end) entries ops));
          maxSize := maxSize l |}.
Proof.
  revert l entries. induction ops as [|[e|] ops IH]; intros l entries Hcap Hl.
  - cbn [runLog foldl]. rewrite <- Hl. by destruct l.
  - cbn [runLog foldl]. rewrite AddMessage_spec by done.
    cbn [mbind option_bind].
    match goal with
    | |- runLog ?l1 ops = _ =>
        rewrite (IH l1 (entries ++ [e])); cbn [messages maxSize]
    end; [done|done|].
    rewrite Hl, reverse_app. destruct e. cbn [Direction Topic Payload Timestamp].
    rewrite reverse_singleton. cbn [app].
    match goal with
    | |- take ?n (?x :: take ?n ?l) = _ => apply (take_app_take n [x] l)
    end.
  - cbn [runLog foldl].
    rewrite (IH (Clear l) []); cbn [Clear messages maxSize]; [done|done|].
    by rewrite reverse_nil, take_nil.
Qed.

(** X11: appends and clears in any order, on a log of any construction
    argument, never panic and never change the capacity; the log then
    holds the entries appended since the last clear, newest first, as many
    as the capacity allows. *)
Theorem runLog_since_clear (maxSize0 : Z) (ops : list LogOp) :
  ∃ l, runLog (NewMessageLog maxSize0) ops = Some l ∧
       maxSize l = maxSize (NewMessageLog maxSize0) ∧
       (Z.of_nat (Count l) ≤ maxSize l)%Z ∧
       GetAll l = take (Z.to_nat (maxSize l)) (reverse (sinceClear ops)).
Proof.
  pose proof (NewMessageLog_maxSize_pos maxSize0) as Hpos.
  eexists. split.
  - apply (runLog_from ops _ []); [lia|]. by rewrite reverse_nil, take_nil.
  - unfold Count, GetAll, sinceClear. cbn [messages maxSize].
    split_and!; [done| |done]. rewrite length_take. lia.
Qed.

(** X12: an append to a full log drops exactly the oldest entry and keeps
    the count; an append to a log with room drops nothing and the count
    grows by one. *)
Theorem AddMessage_evicts_oldest (l : t) (direction : MessageDirection)
    (topic payload : string) (now : Time) :
  (0 < maxSize l)%Z → (Z.of_nat (Count l) ≤ maxSize l)%Z →
  let entry :=
    {| Direction := direction; Topic := topic; Payload := payload;
       Timestamp := now |} in
  ∃ l', AddMessage l direction topic payload now = Some l' ∧
        maxSize l' = maxSize l ∧
        (∀ kept oldest,
           Z.of_nat (Count l) = maxSize l → GetAll l = kept ++ [oldest] →
           GetAll l' = entry :: kept ∧ Count l' = Count l) ∧
        ((Z.of_nat (Count l) < maxSize l)%Z →
         GetAll l' = entry :: GetAll l ∧ Count l' = S (Count l)).
Proof.
  intros Hcap Hlen entry. rewrite AddMessage_spec by lia.
  eexists. split; [done|]. unfold GetAll, Count in *. cbn [messages maxSize].
  split_and!; [done|..].
  - intros kept oldest Hfull Hall. rewrite Hall in *.
    rewrite length_app in Hfull. cbn in Hfull.
    replace (Z.to_nat (maxSize l)) with (S (length kept)) by lia.
    cbn [take]. rewrite take_app_length. cbn. split; [done|].
    rewrite length_app. cbn. lia.
  - intros Hroom. rewrite take_ge by (cbn; lia). done.
Qed.

Lemma AddMessage_evicts_oldest_witness :
  ∃ l',
    AddMessage
      {| messages := [{| Direction := MessageReceived; Topic := "t2";
                         Payload := "1"; Timestamp := 2%Z |};
                      {| Direction := MessageReceived; Topic := "t1";
                         Payload := "0"; Timestamp := 1%Z |}];
         maxSize := 2 |}
      MessageSent "t3" "1" 3%Z = Some l' ∧
    GetAll l' = [{| Direction := MessageSent; Topic := "t3";
                    Payload := "1"; Timestamp := 3%Z |};
                 {| Direction := MessageReceived; Topic := "t2";
                    Payload := "1"; Timestamp := 2%Z |}].
Proof.
  destruct (AddMessage_evicts_oldest
              {| messages := [{| Direction := MessageReceived; Topic := "t2";
                                 Payload := "1"; Timestamp := 2%Z |};
                              {| Direction := MessageReceived; Topic := "t1";
                                 Payload := "0"; Timestamp := 1%Z |}];
                 maxSize := 2 |}
              MessageSent "t3" "1" 3%Z eq_refl ltac:(cbn; lia))
    as (l' & Hrun & _ & Hfull & _).
  exists l'. split; [exact Hrun|].
  by destruct (Hfull [_] _ eq_refl eq_refl).
Defined.

End MessageLogMore.

(** ** config.go and crypto.go *)

Section ConfigMore.
Import config.

(** X13: [Validate] accepts exactly the ports 1 to 65535.  An accepted
    configuration comes back with its fields as they were, except that an
    empty subscribe string has become "power/#"; it is then accepted
    unchanged by a second [Validate].  A refused configuration comes back
    as it was. *)
Theorem Validate_spec (c : Config) :
  ((Validate c).2 = None ↔ (1 ≤ ServerPort c ≤ 65535)%Z) ∧
  ((Validate c).2 = None →
   Username (Validate c).1 = Username c ∧
   PasswordHash (Validate c).1 = PasswordHash c ∧
   MQTTServer (Validate c).1 = MQTTServer c ∧
   ServerPort (Validate c).1 = ServerPort c ∧
   SubscribeString (Validate c).1 =
     (if decide (SubscribeString c = "") then "power/#"
      else SubscribeString c) ∧
   SubscribeString (Validate c).1 ≠ "" ∧
   Validate (Validate c).1 = ((Validate c).1, None)) ∧
  ((Validate c).2 ≠ None → (Validate c).1 = c).
Proof.
  unfold Validate.
  destruct (decide (ServerPort c < 1 ∨ ServerPort c > 65535)%Z) as [Hbad|Hok];
    cbn [fst snd].
  - split_and!; [split; [done|lia] | done | done].
  - destruct (decide (SubscribeString c = "")) as [Hsub|Hsub]; cbn [fst snd].
    + split_and!; [split; [lia|done] | | done].
      intros _. cbn. rewrite decide_False by done.
      by rewrite decide_False by done.
    + split_and!; [split; [lia|done] | | done].
      intros _. rewrite decide_False by done.
      by rewrite decide_False by done.
Qed.

Lemma Validate_fixed (c c' : Config) :
  Validate c = (c', None) →
  (1 ≤ ServerPort c' ≤ 65535)%Z ∧ SubscribeString c' ≠ "" ∧
  Validate c' = (c', None).
Proof.
  unfold Validate.
  destruct (decide (ServerPort c < 1 ∨ ServerPort c > 65535)%Z); [done|].
  destruct (decide (SubscribeString c = "")) as [Hsub|Hsub]; intros [= <-];
    cbn [ServerPort SubscribeString].
  - split; [lia|]. split; [done|].
    repeat case_decide; first [done | lia].
  - split; [lia|]. split; [done|].
    repeat case_decide; first [done | lia].
Qed.

(** X14: a configuration that [Load] returns is a valid one: its port is
    between 1 and 65535, its subscribe string is not empty, and [Validate]
    leaves it as it is.  When the file does not exist, that configuration
    is the default one, whatever the file system would answer to a read. *)
Theorem Load_valid (w : World) (f : ConfigFile) (c : Config) :
  Load w f = Ok c →
  (1 ≤ ServerPort c ≤ 65535)%Z ∧ SubscribeString c ≠ "" ∧
  Validate c = (c, None) ∧
  (statNotExist f = true → c = DefaultConfig).
Proof.
  unfold Load. destruct (getConfigPath w) as [configPath|]; [|done].
  destruct (statNotExist f).
  - intros [= <-]. cbn. split_and!; first [done | lia].
  - destruct (ReadFile f) as [data|]; [|done].
    destruct (Unmarshal f data) as [config|]; [|done].
    destruct (Validate config) as [c' [err|]] eqn:Hvalid; [done|].
    intros [= ->]. destruct (Validate_fixed _ _ Hvalid) as (? & ? & ?).
    split_and!; first [done | lia].
Qed.

Lemma Load_valid_witness :
  (1 ≤ 8883 ≤ 65535)%Z ∧ "power/#" ≠ "".
Proof.
  destruct (Load_valid exampleWorld
              {| statNotExist := false;
                 ReadFile := Ok "{}";
                 Unmarshal := λ _,
                   Ok {| Username := "user"; PasswordHash := "";
                         MQTTServer := "broker.local"; ServerPort := 8883;
                         SubscribeString := "" |} |}
              {| Username := "user"; PasswordHash := "";
                 MQTTServer := "broker.local"; ServerPort := 8883;
                 SubscribeString := "power/#" |} eq_refl)
    as (Hport & Hsub & _).
  split; [exact Hport | exact Hsub].
Defined.

End ConfigMore.

Section CryptoMore.
Import crypto.

Lemma sliceTo_app (a b : string) : sliceTo (a +:+ b) (String.length a) = a.
Proof.
  induction a as [|c a IH]; simpl; [by destruct b|]. by rewrite IH.
Qed.

Lemma sliceFrom_app (a b : string) : sliceFrom (a +:+ b) (String.length a) = b.
Proof. induction a as [|c a IH]; simpl; [by destruct b|done]. Qed.

Lemma length_string_of_list_ascii (l : list ascii) :
  String.length (string_of_list_ascii l) = length l.
Proof. induction l as [|c l IH]; simpl; [done|]. by rewrite IH. Qed.

Lemma ReadFull_length (m : Machine) (n : nat) (buf : string) :
  ReadFull m n = Ok buf → String.length buf = n.
Proof.
  unfold ReadFull. destruct (randError m); [done|]. intros [= <-].
  by rewrite length_string_of_list_ascii, length_fmap, length_seq.
Qed.

Section Laws.
Context `{Primitives} `{!PrimitivesLaws}.

(** What [EncryptPassword] returns is opened by [DecryptPassword] on the
    same machine, and is empty only for the empty password. *)
Lemma DecryptPassword_EncryptPassword (m : Machine) (plaintext sealed : string) :
  EncryptPassword m plaintext = Ok sealed →
  DecryptPassword m sealed = Ok plaintext ∧ (sealed = "" ↔ plaintext = "").
Proof.
  unfold EncryptPassword, DecryptPassword.
  case_decide as Hplain.
  - subst plaintext. intros [= <-]. by rewrite decide_True.
  - unfold getEncryptionKey.
    destruct (NewCipher _) as [block|]; [|done].
    destruct (NewGCM block) as [gcm|] eqn:Hgcm; [|done].
    destruct (ReadFull m (NonceSize gcm)) as [nonce|] eqn:Hnonce; [|done].
    intros [= <-].
    apply ReadFull_length in Hnonce.
    pose proof (NonceSize_GCM block gcm Hgcm) as Hsize.
    assert (EncodeToString (nonce +:+ Seal gcm nonce plaintext) ≠ "") as Hne.
    { intros Hempty%EncodeToString_empty.
      apply (f_equal String.length) in Hempty.
      rewrite app_length_string in Hempty. simpl in Hempty. lia. }
    rewrite decide_False by done.
    rewrite DecodeString_EncodeToString.
    rewrite decide_False by (rewrite app_length_string; lia).
    rewrite <- Hnonce, sliceTo_app, sliceFrom_app.
    rewrite (Open_Seal block) by done. split; [done|]. by split.
Qed.

(** X15: on one machine, [DecryptPassword] recovers the password from what
    [EncryptPassword] returned for it, whatever nonce was drawn; the empty
    password, and no other, is stored as the empty string. *)
Theorem crypto_round_trip (m : Machine) (plaintext sealed : string) :
  EncryptPassword m plaintext = Ok sealed →
  DecryptPassword m sealed = Ok plaintext ∧ (sealed = "" ↔ plaintext = "").
Proof. apply DecryptPassword_EncryptPassword. Qed.

End Laws.

End CryptoMore.

Section ConfigPassword.
Context `{crypto.Primitives} `{!PrimitivesLaws}.

(** X16: the password given to [SetPassword] is the one [GetPassword]
    returns afterwards, with crypto.go sealing and opening it on one
    machine; [SetPassword] changes no other field.  For the empty password
    nothing is sealed: the stored hash is empty and [GetPassword] returns
    the empty password. *)
Theorem GetPassword_SetPassword (m : crypto.Machine) (w : World)
    (c c' : config.Config) (plaintext : string) :
  config.SetPassword (cryptoWorld m w) c plaintext = (c', None) →
  config.GetPassword (cryptoWorld m w) c' = Ok plaintext ∧
  config.Username c' = config.Username c ∧
  config.MQTTServer c' = config.MQTTServer c ∧
  config.ServerPort c' = config.ServerPort c ∧
  config.SubscribeString c' = config.SubscribeString c ∧
  (plaintext = "" ↔ config.PasswordHash c' = "").
Proof.
  unfold config.SetPassword, config.GetPassword.
  change (EncryptPassword (cryptoWorld m w)) with (crypto.EncryptPassword m).
  change (DecryptPassword (cryptoWorld m w)) with (crypto.DecryptPassword m).
  destruct (crypto.EncryptPassword m plaintext) as [sealed|] eqn:Hseal; [|done].
  intros [= <-]. cbn [config.PasswordHash config.Username config.MQTTServer
                      config.ServerPort config.SubscribeString].
  destruct (DecryptPassword_EncryptPassword m plaintext sealed Hseal)
    as [Hopen Hempty].
  split_and!; try done.
  case_decide as Hsealed; [|by rewrite Hopen].
  f_equal. symmetry. by apply Hempty.
Qed.

End ConfigPassword.

Lemma plainPrimitives_laws : @PrimitivesLaws plainPrimitives.
Proof.
  split; cbn; try done.
  - by intros block gcm nonce plaintext [= <-].
  - by intros block gcm [= <-].
Qed.

Lemma crypto_round_trip_witness :
  @crypto.DecryptPassword plainPrimitives exampleMachine "nnnnnnnnnnnnsecret" =
    Ok "secret" ∧
  ("nnnnnnnnnnnnsecret" = "" ↔ "secret" = "").
Proof.
  apply (@crypto_round_trip plainPrimitives plainPrimitives_laws
           exampleMachine "secret" "nnnnnnnnnnnnsecret" eq_refl).
Defined.

Lemma GetPassword_SetPassword_witness :
  config.GetPassword (@cryptoWorld plainPrimitives exampleMachine exampleWorld)
    {| config.Username := "user"; config.PasswordHash := "nnnnnnnnnnnnsecret";
       config.MQTTServer := "broker.local"; config.ServerPort := 1883;
       config.SubscribeString := "power/#" |} = Ok "secret".
Proof.
  apply (@GetPassword_SetPassword plainPrimitives plainPrimitives_laws
           exampleMachine exampleWorld
           {| config.Username := "user"; config.PasswordHash := "";
              config.MQTTServer := "broker.local"; config.ServerPort := 1883;
              config.SubscribeString := "power/#" |} _ "secret" eq_refl).
Defined.

(** ** client.go *)

Section ClientMore.

(** X17: [Connect] reports success exactly when a server is configured, the
    stored password can be recovered and the connection attempt completes
    without error; the client is then connected, through a session made
    for the configured server, port, user and recovered password.  Without
    a server or without the password it fails before anything is sent and
    leaves the client as it was; however it fails, the connected flag is
    the one it found. *)
Theorem Connect_spec (w : World) (c : mqtt.Client) (cfg : config.Config) :
  ∃ err c' calls,
    mqtt.Connect w c cfg = (err, c', calls) ∧
    (err = None ↔
     config.MQTTServer cfg ≠ "" ∧ is_Ok (config.GetPassword w cfg) = true ∧
     connectToken w = TokenDone) ∧
    (err = None →
     mqtt.connected c' = true ∧
     ∃ opts, mqtt.client c' = Some opts ∧
             mqtt.optServer opts = config.MQTTServer cfg ∧
             mqtt.optPort opts = config.ServerPort cfg ∧
             mqtt.optUsername opts = config.Username cfg ∧
             config.GetPassword w cfg = Ok (mqtt.optPassword opts) ∧
             calls = [Connects (config.MQTTServer cfg) (config.ServerPort cfg)
                        (mqtt.optClientID opts) (config.Username cfg)
                        (mqtt.optPassword opts)]) ∧
    (config.MQTTServer cfg = "" ∨ is_Ok (config.GetPassword w cfg) = false →
     c' = c ∧ calls = []) ∧
    (err ≠ None → mqtt.connected c' = mqtt.connected c).
Proof.
  unfold mqtt.Connect.
  destruct (decide (config.MQTTServer cfg = "")) as [Hserver|Hserver].
  { eexists _, _, _. split; [done|]. split_and!; try done.
    split; [done|]. by intros (? & _). }
  destruct (config.GetPassword w cfg) as [password|err0] eqn:Hpassword.
  2: { eexists _, _, _. split; [done|]. split_and!; try done.
       split; [done|]. by intros (_ & ? & _). }
  destruct (connectToken w) eqn:Htoken;
    (eexists _, _, _; split; [done|]); cbn.
  - split_and!; try done.
    + split; [done|]. by intros (_ & _ & ?).
    + by intros [?|?].
  - split_and!; try done.
    + split; [done|]. by intros (_ & _ & ?).
    + by intros [?|?].
  - split_and!; try done.
    + intros _. split; [done|]. by eexists.
    + by intros [?|?].
Qed.

(** X18: after [Disconnect] the client is not connected and keeps its
    session handle.  A [Publish] is then refused without a call on the
    broker, whereas a [Subscribe] still goes to the session when there is
    one, as it does not look at the connected flag.  A second [Disconnect]
    changes nothing, and the session is told to disconnect only when there
    is one and it is connected. *)
Theorem after_Disconnect (w w' : World) (c : mqtt.Client)
    (topic payload : string) :
  mqtt.IsConnected (mqtt.Disconnect w c).1 = false ∧
  mqtt.client (mqtt.Disconnect w c).1 = mqtt.client c ∧
  mqtt.Publish w' (mqtt.Disconnect w c).1 topic payload =
    (Some (refusal c), []) ∧
  (is_Some (mqtt.client c) →
   (mqtt.Subscribe w' (mqtt.Disconnect w c).1 topic).2 = [Subscribes topic]) ∧
  (mqtt.Disconnect w' (mqtt.Disconnect w c).1).1 = (mqtt.Disconnect w c).1 ∧
  ((mqtt.Disconnect w c).2 =
   if bool_decide (is_Some (mqtt.client c)) && pahoIsConnected w
   then [Disconnects 250] else []).
Proof.
  split_and!; try done.
  - by rewrite Publish_not_connected.
  - intros [opts Hopts]. unfold mqtt.Subscribe. cbn. rewrite Hopts.
    by destruct (subscribeToken w').
  - unfold mqtt.Disconnect. cbn. destruct (mqtt.client c); [|done].
    rewrite bool_decide_eq_true_2 by eauto. done.
Qed.

(** X19: when the link is lost and comes back, the connection callback is
    told false and then true, and the handler subscribes again, to the
    subscribe string of the configuration the client was connected with;
    in between the client is not connected and refuses to publish, and
    afterwards it is connected.  With an empty subscribe string nothing is
    subscribed again. *)
Theorem reconnect_resubscribes (w : World) (c : mqtt.Client)
    (cfg : config.Config) (opts : mqtt.ClientOptions) (topic payload : string) :
  mqtt.client c = Some opts →
  let lost := mqtt.onConnectionLost c (Some app.handleConnectionStatus) in
  let back := mqtt.onConnect w lost.1 (Some app.handleConnectionStatus) cfg in
  mqtt.IsConnected lost.1 = false ∧
  mqtt.Publish w lost.1 topic payload =
    (Some (Errorf "not connected to broker" []), []) ∧
  mqtt.IsConnected back.1 = true ∧
  mqtt.client back.1 = Some opts ∧
  (config.SubscribeString cfg ≠ "" →
   lost.2 ++ back.2 =
     [Emits "connection:status" (DataBool false);
      Emits "connection:status" (DataBool true);
      Subscribes (config.SubscribeString cfg)]) ∧
  (config.SubscribeString cfg = "" →
   lost.2 ++ back.2 =
     [Emits "connection:status" (DataBool false);
      Emits "connection:status" (DataBool true)]).
Proof.
  intros Hopts lost back. unfold lost, back, mqtt.onConnect,
    mqtt.onConnectionLost, mqtt.Publish, mqtt.Subscribe. cbn.
  rewrite Hopts. split_and!; try done.
  - intros Hfilter. rewrite decide_True by done.
    by destruct (subscribeToken w).
  - intros Hfilter. by rewrite decide_False by (by intros ?).
Qed.

Lemma reconnect_resubscribes_witness :
  (mqtt.onConnectionLost (app.mqttClient offlineApp)
     (Some app.handleConnectionStatus)).2 ++
  (mqtt.onConnect exampleWorld
     (mqtt.onConnectionLost (app.mqttClient offlineApp)
        (Some app.handleConnectionStatus)).1
     (Some app.handleConnectionStatus)
     config.DefaultConfig).2 =
  [Emits "connection:status" (DataBool false);
   Emits "connection:status" (DataBool true);
   Subscribes "power/#"].
Proof.
  destruct (reconnect_resubscribes exampleWorld (app.mqttClient offlineApp)
              config.DefaultConfig _ "t" "p" eq_refl)
    as (_ & _ & _ & _ & Hagain & _).
  by apply Hagain.
Defined.

End ClientMore.

(** ** app.go *)

Section CoordinatorMore.
Import GoStrings models app.

Section Handlers.
Context `{Unicode}.

(** What the handler does with a topic it can decode. *)
Lemma handleMQTTMessage_decoded (a : App) (topic payload : string)
    (tLog tStore : Time) (device outlet : string) :
  mqtt.ParseTopic topic = Ok (device, outlet) →
  (0 < MessageLog.maxSize (messageLog a))%Z →
  handleMQTTMessage a topic payload tLog tStore =
  Some
    ({| mqttClient := mqttClient a;
        deviceStore :=
          DeviceStore.Add (deviceStore a)
            (outletRecord device outlet (mqtt.ParsePayload payload) zeroTime)
            tStore;
        messageLog :=
          {| MessageLog.messages :=
               {| Direction := MessageReceived; Topic := topic;
                  Payload := payload; Timestamp := tLog |}
               :: take (Z.to_nat (MessageLog.maxSize (messageLog a)) - 1)
                    (MessageLog.messages (messageLog a));
             MessageLog.maxSize := MessageLog.maxSize (messageLog a) |};
        config := config a |},
     [Emits "message:new" (DataMessage "Recv" topic payload);
      Emits "device:update"
        (DataDevice
           (outletRecord device outlet (mqtt.ParsePayload payload) zeroTime))]).
Proof.
  intros Hdecode Hcap. unfold handleMQTTMessage.
  rewrite AddMessage_spec by lia. cbn [mbind option_bind].
  rewrite Hdecode. unfold setStore, setLog. cbn.
  destruct (Z.to_nat (MessageLog.maxSize (messageLog a))) as [|n] eqn:Hn;
    [lia|].
  cbn [take]. by rewrite Nat.sub_1_r.
Qed.

(** X20: an inbound message whose topic decodes to (device, outlet) is
    logged as one Received entry at the head of the log and upserts the
    record of that identity: [Get] then returns the device, the outlet,
    the decoded payload as status and the instant of the update.  Two
    events are emitted, "message:new" and then "device:update"; client and
    configuration are untouched. *)
Theorem handleMQTTMessage_status (a : App) (topic payload : string)
    (tLog tStore : Time) (device outlet : string) :
  mqtt.ParseTopic topic = Ok (device, outlet) →
  (0 < MessageLog.maxSize (messageLog a))%Z →
  ∃ a',
    handleMQTTMessage a topic payload tLog tStore =
      Some (a', [Emits "message:new" (DataMessage "Recv" topic payload);
                 Emits "device:update"
                   (DataDevice
                      (outletRecord device outlet (mqtt.ParsePayload payload)
                         zeroTime))]) ∧
    DeviceStore.Get (deviceStore a') device outlet =
      (outletRecord device outlet (mqtt.ParsePayload payload) tStore, true) ∧
    (∀ name number,
       DeviceStore.makeKey name number ≠ DeviceStore.makeKey device outlet →
       DeviceStore.Get (deviceStore a') name number =
       DeviceStore.Get (deviceStore a) name number) ∧
    GetMessages a' =
      {| Direction := MessageReceived; Topic := topic; Payload := payload;
         Timestamp := tLog |}
      :: take (Z.to_nat (MessageLog.maxSize (messageLog a)) - 1)
           (GetMessages a) ∧
    mqttClient a' = mqttClient a ∧
    config a' = config a.
Proof.
  intros Hdecode Hcap.
  rewrite (handleMQTTMessage_decoded a topic payload tLog tStore device outlet)
    by done.
  eexists. split; [done|]. cbn [deviceStore mqttClient config].
  unfold DeviceStore.Get, DeviceStore.Add. cbn.
  split_and!; try done.
  - by rewrite lookup_insert_eq.
  - intros name number Hkey. by rewrite lookup_insert_ne.
Qed.

(** X21: the last message wins.  Of two messages on one decodable topic,
    the second alone determines the stored record: the device store after
    both is the store after the second only, and the second does not make
    the store grow. *)
Theorem handleMQTTMessage_last_wins (a : App) (topic payload1 payload2 : string)
    (tLog1 tStore1 tLog2 tStore2 : Time) (device outlet : string) :
  mqtt.ParseTopic topic = Ok (device, outlet) →
  (0 < MessageLog.maxSize (messageLog a))%Z →
  ∃ a1 a2 a2' events1 events2,
    handleMQTTMessage a topic payload1 tLog1 tStore1 = Some (a1, events1) ∧
    handleMQTTMessage a1 topic payload2 tLog2 tStore2 = Some (a2, events2) ∧
    handleMQTTMessage a topic payload2 tLog2 tStore2 = Some (a2', events2) ∧
    deviceStore a2 = deviceStore a2' ∧
    DeviceStore.Count (deviceStore a2) = DeviceStore.Count (deviceStore a1) ∧
    DeviceStore.Get (deviceStore a2) device outlet =
      (outletRecord device outlet (mqtt.ParsePayload payload2) tStore2, true).
Proof.
  intros Hdecode Hcap.
  rewrite (handleMQTTMessage_decoded a topic payload1 tLog1 tStore1 device
             outlet) by done.
  rewrite (handleMQTTMessage_decoded a topic payload2 tLog2 tStore2 device
             outlet) by done.
  eexists _, _, _, _, _. split; [done|].
  rewrite (handleMQTTMessage_decoded _ topic payload2 tLog2 tStore2 device
             outlet) by done.
  split; [done|]. split; [done|]. cbn [deviceStore].
  unfold DeviceStore.Add, DeviceStore.Get, DeviceStore.Count. cbn.
  split_and!.
  - f_equal. apply insert_insert_eq.
  - apply map_size_insert_Some. rewrite lookup_insert_eq. by eexists.
  - by rewrite lookup_insert_eq.
Qed.

(** X22: a command topic that comes back inbound is taken for a status
    report: for a device and an outlet that are not empty and hold no
    slash, the handler decodes the topic the coordinator publishes
    commands on and stores the payload as the state of that outlet. *)
Theorem handleMQTTMessage_command_echo (a : App) (deviceName outletNumber : string)
    (payload : string) (tLog tStore : Time) :
  deviceName ≠ "" → outletNumber ≠ "" →
  free_of "/" deviceName → free_of "/" outletNumber →
  (0 < MessageLog.maxSize (messageLog a))%Z →
  ∃ a' events,
    handleMQTTMessage a (mqtt.MakeCommandTopic deviceName outletNumber)
      payload tLog tStore = Some (a', events) ∧
    DeviceStore.Get (deviceStore a') deviceName outletNumber =
      (outletRecord deviceName outletNumber (mqtt.ParsePayload payload) tStore,
       true).
Proof.
  intros Hd Ho Hfd Hfo Hcap.
  assert (mqtt.ParseTopic (mqtt.MakeCommandTopic deviceName outletNumber) =
          Ok (deviceName, outletNumber)) as Hdecode.
  { apply ParseTopic_Ok_iff. split_and!; [done..|]. exists ["set"].
    by apply Split_MakeCommandTopic. }
  rewrite (handleMQTTMessage_decoded a _ payload tLog tStore deviceName
             outletNumber) by done.
  eexists _, _. split; [done|]. cbn [deviceStore].
  unfold DeviceStore.Get, DeviceStore.Add. cbn.
  by rewrite lookup_insert_eq.
Qed.

(** X23: [SendCommand] returns without error exactly when the client has a
    session, is connected and the publish completes.  It has then
    published the encoded state on the command topic, put one Sent entry
    for it at the head of the log and emitted "message:new".  When it
    returns an error, the coordinator is as it was and no event is
    emitted: only the publish may have been tried.  The device store is
    never touched. *)
Theorem SendCommand_spec (w : World) (a : App)
    (deviceName outletNumber state : string) (tLog : Time) :
  (0 < MessageLog.maxSize (messageLog a))%Z →
  let topic := mqtt.MakeCommandTopic deviceName outletNumber in
  let payload := mqtt.StatusToPayload state in
  ∃ err a' actions,
    SendCommand w a deviceName outletNumber state tLog =
      Some (err, a', actions) ∧
    (err = None ↔
     is_Some (mqtt.client (mqttClient a)) ∧
     mqtt.connected (mqttClient a) = true ∧ publishToken w = TokenDone) ∧
    (err = None →
     actions = [Publishes topic payload;
                Emits "message:new" (DataMessage "Send" topic payload)] ∧
     GetMessages a' =
       {| Direction := MessageSent; Topic := topic; Payload := payload;
          Timestamp := tLog |}
       :: take (Z.to_nat (MessageLog.maxSize (messageLog a)) - 1)
            (GetMessages a)) ∧
    (err ≠ None →
     a' = a ∧ (actions = [] ∨ actions = [Publishes topic payload])) ∧
    deviceStore a' = deviceStore a ∧
    mqttClient a' = mqttClient a.
Proof.
  intros Hcap topic payload. unfold SendCommand, mqtt.Publish.
  fold topic payload.
  destruct (mqtt.client (mqttClient a)) as [opts|] eqn:Hclient.
  2: { eexists _, _, _. split; [done|]. split_and!; try done; [|by auto].
       split; [done|]. by intros ([? ?] & _). }
  destruct (mqtt.connected (mqttClient a)) eqn:Hon; cbn [negb].
  2: { eexists _, _, _. split; [done|]. split_and!; try done; [|by auto].
       split; [done|]. by intros (_ & ? & _). }
  destruct (publishToken w) eqn:Htoken.
  - eexists _, _, _. split; [done|]. split_and!; try done; [|by auto].
    split; [done|]. by intros (_ & _ & ?).
  - eexists _, _, _. split; [done|]. split_and!; try done; [|by auto].
    split; [done|]. by intros (_ & _ & ?).
  - rewrite AddMessage_spec by lia. cbn [mbind option_bind].
    eexists _, _, _. split; [done|].
    unfold GetMessages, MessageLog.GetAll, setLog. cbn.
    destruct (Z.to_nat (MessageLog.maxSize (messageLog a))) as [|n] eqn:Hn;
      [lia|].
    cbn [take]. rewrite Nat.sub_1_r. cbn [Nat.pred].
    split_and!; try done; by eauto.
Qed.

End Handlers.

Lemma handleMQTTMessage_status_witness :
  ∃ a' events,
    @handleMQTTMessage asciiOnly exampleApp "power/office-strip/outlets/2" "1"
      30%Z 31%Z = Some (a', events) ∧
    DeviceStore.Get (deviceStore a') "office-strip" "2" =
      (outletRecord "office-strip" "2" "ON" 31%Z, true).
Proof.
  destruct (@handleMQTTMessage_status asciiOnly exampleApp
              "power/office-strip/outlets/2" "1" 30%Z 31%Z
              "office-strip" "2" eq_refl eq_refl)
    as (a' & Hrun & Hget & _).
  eexists a', _. split; [exact Hrun | exact Hget].
Defined.

Lemma handleMQTTMessage_last_wins_witness :
  ∃ a1 a2 events1 events2,
    @handleMQTTMessage asciiOnly NewApp "power/office-strip/outlets/1" "1"
      1%Z 2%Z = Some (a1, events1) ∧
    @handleMQTTMessage asciiOnly a1 "power/office-strip/outlets/1" "0"
      3%Z 4%Z = Some (a2, events2) ∧
    DeviceStore.Count (deviceStore a2) = DeviceStore.Count (deviceStore a1) ∧
    DeviceStore.Get (deviceStore a2) "office-strip" "1" =
      (outletRecord "office-strip" "1" "OFF" 4%Z, true).
Proof.
  destruct (@handleMQTTMessage_last_wins asciiOnly NewApp
              "power/office-strip/outlets/1" "1" "0" 1%Z 2%Z 3%Z 4%Z
              "office-strip" "1" eq_refl eq_refl)
    as (a1 & a2 & a2' & events1 & events2 & H1 & H2 & _ & _ & Hcount & Hget).
  exists a1, a2, events1, events2. split_and!; [exact H1 | exact H2 | exact Hcount | exact Hget].
Defined.

Lemma handleMQTTMessage_command_echo_witness :
  ∃ a' events,
    @handleMQTTMessage asciiOnly NewApp
      (mqtt.MakeCommandTopic "office-strip" "1") "1" 1%Z 2%Z =
      Some (a', events) ∧
    DeviceStore.Get (deviceStore a') "office-strip" "1" =
      (outletRecord "office-strip" "1" "ON" 2%Z, true).
Proof.
  apply (@handleMQTTMessage_command_echo asciiOnly NewApp "office-strip" "1"
           "1" 1%Z 2%Z);
    first [discriminate | reflexivity | by repeat split].
Defined.

Lemma SendCommand_spec_witness :
  ∃ a',
    @SendCommand asciiOnly exampleWorld
      (setClient offlineApp
         {| mqtt.client := mqtt.client (mqttClient offlineApp);
            mqtt.connected := true |})
      "office-strip" "1" "on" 40%Z =
      Some (None, a',
            [Publishes "power/office-strip/outlets/1/set" "1";
             Emits "message:new"
               (DataMessage "Send" "power/office-strip/outlets/1/set" "1")]).
Proof.
  destruct (@SendCommand_spec asciiOnly exampleWorld
              (setClient offlineApp
                 {| mqtt.client := mqtt.client (mqttClient offlineApp);
                    mqtt.connected := true |})
              "office-strip" "1" "on" 40%Z eq_refl)
    as (err & a' & actions & Hrun & Hok & Hdone & _).
  assert (err = None) as -> by (apply Hok; by eauto).
  destruct (Hdone eq_refl) as [-> _]. by exists a'.
Defined.

(** *** Connecting *)

(** X24: [connectMQTT] subscribes only after a connect that completed, and
    then to the subscribe string of the configuration.  Its calls on the
    broker are fixed by the configuration and the outcome of the connect:
    none exactly when the connect is refused before it begins (no server,
    or the stored password cannot be recovered); otherwise the connect to
    the configured server, port and user with the recovered password,
    followed by that one subscription exactly when the connect completed.
    It returns without error exactly when both completed; the calls made
    are then the connect and the subscription, and the client is
    connected.  Store, log and configuration are never touched.  Without
    a configuration it panics. *)
Theorem connectMQTT_order (w : World) (a : App) :
  (config a = None → connectMQTT w a = None) ∧
  ∀ cfg, config a = Some cfg →
    ∃ err a' actions,
      connectMQTT w a = Some (err, a', actions) ∧
      (actions = [] ↔
       config.MQTTServer cfg = "" ∨
       is_Ok (config.GetPassword w cfg) = false) ∧
      (∀ password,
         config.MQTTServer cfg ≠ "" →
         config.GetPassword w cfg = Ok password →
         actions =
           Connects (config.MQTTServer cfg) (config.ServerPort cfg)
             ("go-powercontrol-" +:+ newUUID w) (config.Username cfg)
             password ::
           match connectToken w with
           | TokenDone => [Subscribes (config.SubscribeString cfg)]
           | _ => []
           end) ∧
      (err = None ↔
       config.MQTTServer cfg ≠ "" ∧
       is_Ok (config.GetPassword w cfg) = true ∧
       connectToken w = TokenDone ∧ subscribeToken w = TokenDone) ∧
      (err = None →
       mqtt.connected (mqttClient a') = true ∧
       ∃ password,
         config.GetPassword w cfg = Ok password ∧
         actions =
           [Connects (config.MQTTServer cfg) (config.ServerPort cfg)
              ("go-powercontrol-" +:+ newUUID w) (config.Username cfg)
              password;
            Subscribes (config.SubscribeString cfg)]) ∧
      deviceStore a' = deviceStore a ∧
      messageLog a' = messageLog a ∧
      config a' = config a.
Proof.
  split; [by unfold connectMQTT; intros ->|].
  intros cfg Hcfg. unfold connectMQTT, mqtt.Connect, mqtt.Subscribe.
  rewrite Hcfg. cbn [mbind option_bind].
  destruct (decide (config.MQTTServer cfg = "")) as [Hserver|Hserver].
  { eexists _, _, _. split; [done|]. split_and!; try done.
    - split; [by left|done].
    - split; [done|]. by intros (? & _). }
  destruct (config.GetPassword w cfg) as [password|err0].
  2: { eexists _, _, _. split; [done|]. split_and!; try done.
       - split; [by right|done].
       - split; [done|]. by intros (_ & ? & _). }
  destruct (connectToken w) eqn:Hconnect; cbn.
  - eexists _, _, _. split; [done|]. split_and!; try done.
    + split; [done|]. by intros [?|?].
    + intros password' _ [= <-]. done.
    + split; [done|]. by intros (_ & _ & ? & _).
  - eexists _, _, _. split; [done|]. split_and!; try done.
    + split; [done|]. by intros [?|?].
    + intros password' _ [= <-]. done.
    + split; [done|]. by intros (_ & _ & ? & _).
  - destruct (subscribeToken w) eqn:Hsubscribe; cbn;
      (eexists _, _, _; split; [done|]); split_and!; try done;
      try (split; [done|]; by intros [?|?]);
      try (intros password' _ [= <-]; done);
      try (split; [done|]; by intros (_ & _ & _ & ?));
      try (intros _; split; [done|]; by eexists).
Qed.

Lemma connectMQTT_order_witness :
  ∃ a',
    connectMQTT exampleWorld
      (setConfig offlineApp
         {| config.Username := "user"; config.PasswordHash := "sealed:secret";
            config.MQTTServer := "broker.local"; config.ServerPort := 1883;
            config.SubscribeString := "power/#" |}) =
      Some (None, a',
            [Connects "broker.local" 1883
               "go-powercontrol-6ba7b810-9dad-11d1-80b4-00c04fd430c8"
               "user" "secret";
             Subscribes "power/#"]) ∧
    mqtt.connected (mqttClient a') = true ∧
    deviceStore a' = exampleStore.
Proof.
  destruct (connectMQTT_order exampleWorld
              (setConfig offlineApp
                 {| config.Username := "user";
                    config.PasswordHash := "sealed:secret";
                    config.MQTTServer := "broker.local";
                    config.ServerPort := 1883;
                    config.SubscribeString := "power/#" |})) as [_ Hrun].
  destruct (Hrun _ eq_refl)
    as (err & a' & actions & Hconnect & _ & _ & Hok & Hdone & Hstore & _).
  assert (err = None) as -> by (apply Hok; by split_and!).
  destruct (Hdone eq_refl) as (Hon & password & [= <-] & ->).
  exists a'. by split_and!.
Defined.

(** *** Settings *)

(** [SaveSettings] with accepted settings, with the configuration it
    installs written out. *)
Lemma SaveSettings_accepted_config (w : World) (a : App)
    (username password server : string) (port : Z) (subscribeString : string) :
  settingsAccepted w password port = true →
  ∃ sealed,
    SaveSettings w a username password server port subscribeString =
      '(err, a', actions') ←
         connectMQTT w
           (setStore
              (setClient
                 (setConfig a
                    {| config.Username := username;
                       config.PasswordHash := sealed;
                       config.MQTTServer := server;
                       config.ServerPort := port;
                       config.SubscribeString :=
                         if decide (subscribeString = "") then "power/#"
                         else subscribeString |})
                 (mqtt.Disconnect w (mqttClient a)).1)
              (DeviceStore.Clear (deviceStore a)));
      Some (match err with
            | Some err => Some (Errorf "failed to connect: %w" [ArgW err])
            | None => None
            end, a', (mqtt.Disconnect w (mqttClient a)).2 ++ actions').
Proof.
  intros Haccepted.
  destruct (SaveSettings_config w username password server port
              subscribeString Haccepted)
    as (sealed & Hseal & Hset & Hvalidate & Hsave).
  cbn zeta in Hset, Hvalidate, Hsave. exists sealed.
  unfold SaveSettings. rewrite Hset, Hvalidate, Hsave.
  cbn -[connectMQTT].
  match goal with
  | |- context [connectMQTT w ?a0] =>
      destruct (connectMQTT w a0) as [[[[err|] a'] actions']|]
  end; reflexivity.
Qed.

(** X25: [SaveSettings] never subscribes to the empty filter.  Whatever it
    subscribes to is the subscribe string it was given, or "power/#" when
    that was empty; when it returns without error it has subscribed to it,
    the client is connected and the installed configuration carries that
    subscribe string. *)
Theorem SaveSettings_subscription (w : World) (a : App)
    (username password server : string) (port : Z) (subscribeString : string)
    (err : option error) (a' : App) (actions : list Action) :
  SaveSettings w a username password server port subscribeString =
    Some (err, a', actions) →
  let filter :=
    if decide (subscribeString = "") then "power/#" else subscribeString in
  filter ≠ "" ∧
  (∀ topic, Subscribes topic ∈ actions → topic = filter) ∧
  (err = None →
   Subscribes filter ∈ actions ∧
   mqtt.connected (mqttClient a') = true ∧
   ∃ cfg, config a' = Some cfg ∧ config.SubscribeString cfg = filter ∧
          config.MQTTServer cfg = server ∧ config.ServerPort cfg = port ∧
          config.Username cfg = username).
Proof.
  intros Hrun filter.
  assert (filter ≠ "") as Hfilter.
  { unfold filter. by case_decide. }
  split; [done|].
  destruct (settingsAccepted w password port) eqn:Haccepted.
  2: { destruct (SaveSettings_rejected w a username password server port
                   subscribeString Haccepted) as [err0 Hrejected].
       rewrite Hrejected in Hrun. injection Hrun as <- <- <-.
       split; [|done]. intros topic Hin. by apply elem_of_nil in Hin. }
  destruct (SaveSettings_accepted_config w a username password server port
              subscribeString Haccepted) as [sealed Hrun'].
  rewrite Hrun' in Hrun. clear Hrun'. fold filter in Hrun.
  unfold connectMQTT, mqtt.Connect, mqtt.Subscribe, mqtt.Disconnect in Hrun.
  cbn in Hrun. fold filter in Hrun.
  assert (∀ topic (calls : list Action),
            Subscribes topic ∈
              match mqtt.client (mqttClient a) with
              | Some _ => if pahoIsConnected w then [Disconnects 250] else []
              | None => []
              end ++ calls →
            Subscribes topic ∈ calls) as Hdisc.
  { intros topic calls [Hin|Hin]%elem_of_app; [|done].
    destruct (mqtt.client (mqttClient a)); [|by apply elem_of_nil in Hin].
    destruct (pahoIsConnected w); [|by apply elem_of_nil in Hin].
    by apply list_elem_of_singleton in Hin. }
  destruct (decide (server = "")) as [Hserver|Hserver].
  { injection Hrun as <- <- <-. split; [|done].
    intros topic Hin%Hdisc. by apply elem_of_nil in Hin. }
  destruct (config.GetPassword w _) as [plain|err0].
  2: { injection Hrun as <- <- <-. split; [|done].
       intros topic Hin%Hdisc. by apply elem_of_nil in Hin. }
  destruct (connectToken w); cbn in Hrun.
  - injection Hrun as <- <- <-. split; [|done].
    intros topic Hin%Hdisc. by apply list_elem_of_singleton in Hin.
  - injection Hrun as <- <- <-. split; [|done].
    intros topic Hin%Hdisc. by apply list_elem_of_singleton in Hin.
  - destruct (subscribeToken w); cbn in Hrun; injection Hrun as <- <- <-.
    + split; [|done]. intros topic Hin%Hdisc.
      apply elem_of_cons in Hin as [[=]|Hin].
      apply list_elem_of_singleton in Hin. congruence.
    + split; [|done]. intros topic Hin%Hdisc.
      apply elem_of_cons in Hin as [[=]|Hin].
      apply list_elem_of_singleton in Hin. congruence.
    + split.
      * intros topic Hin%Hdisc.
        apply elem_of_cons in Hin as [[=]|Hin].
        apply list_elem_of_singleton in Hin. congruence.
      * intros _. split_and!; [|done|by eexists].
        apply elem_of_app. right. apply elem_of_cons. right.
        by apply list_elem_of_singleton.
Qed.

Lemma SaveSettings_subscription_witness :
  Subscribes "power/#" ∈
    [Connects "broker.local" 1883
       "go-powercontrol-6ba7b810-9dad-11d1-80b4-00c04fd430c8" "user" "secret";
     Subscribes "power/#"].
Proof.
  exact (proj1 (proj2 (proj2 (SaveSettings_subscription exampleWorld exampleApp
                                "user" "secret" "broker.local" 1883 "" _ _ _
                                eq_refl)) eq_refl)).
Defined.

(** X26: when [SaveSettings] returns without error a server was given, and
    [IsConfigEmpty] afterwards answers true exactly when the user name
    given was empty: settings without a user name connect, and still count
    as not set up. *)
Theorem SaveSettings_IsConfigEmpty (w : World) (a : App)
    (username password server : string) (port : Z) (subscribeString : string)
    (a' : App) (actions : list Action) :
  SaveSettings w a username password server port subscribeString =
    Some (None, a', actions) →
  server ≠ "" ∧ IsConfigEmpty a' = bool_decide (username = "").
Proof.
  intros Hrun.
  destruct (settingsAccepted w password port) eqn:Haccepted.
  2: { destruct (SaveSettings_rejected w a username password server port
                   subscribeString Haccepted) as [err0 Hrejected].
       by rewrite Hrejected in Hrun. }
  destruct (SaveSettings_accepted_config w a username password server port
              subscribeString Haccepted) as [sealed Hrun'].
  rewrite Hrun' in Hrun. clear Hrun'.
  unfold connectMQTT, mqtt.Connect, mqtt.Subscribe in Hrun.
  cbn -[mqtt.Disconnect] in Hrun.
  destruct (decide (server = "")) as [Hserver|Hserver]; [done|].
  split; [done|].
  destruct (config.GetPassword w _) as [plain|err0]; [|done].
  destruct (connectToken w); cbn -[mqtt.Disconnect] in Hrun; try done.
  destruct (subscribeToken w); cbn -[mqtt.Disconnect] in Hrun; try done.
  injection Hrun as <- _. unfold IsConfigEmpty, config.IsEmpty. cbn.
  by rewrite bool_decide_eq_false_2 by done.
Qed.

Lemma SaveSettings_IsConfigEmpty_witness :
  "broker.local" ≠ "" ∧ true = bool_decide ("" = "").
Proof.
  destruct (SaveSettings_IsConfigEmpty exampleWorld exampleApp "" "secret"
              "broker.local" 1883 "power/#" _ _ eq_refl) as [Hserver Hempty].
  split; [exact Hserver | exact Hempty].
Defined.

(** *** Any run of the coordinator *)

Section Runs.
Context `{Unicode}.

Lemma handleMQTTMessage_steady (a : App) (topic payload : string)
    (tLog tStore : Time) :
  steady a →
  ∃ a' events,
    handleMQTTMessage a topic payload tLog tStore = Some (a', events) ∧
    steady a'.
Proof.
  intros (Hcap & Hlen & Hstore). unfold handleMQTTMessage.
  rewrite AddMessage_spec by lia. cbn [mbind option_bind].
  assert (Z.of_nat
            (length
               (take (Z.to_nat (MessageLog.maxSize (messageLog a)))
                  ({| Direction := MessageReceived; Topic := topic;
                      Payload := payload; Timestamp := tLog |}
                   :: MessageLog.messages (messageLog a)))) ≤ 1000)%Z as Hlen'.
  { rewrite length_take. lia. }
  destruct (mqtt.ParseTopic topic) as [[device outlet]|err];
    eexists _, _; (split; [done|]); unfold steady, MessageLog.Count; cbn;
    split_and!; try done.
  by constructor.
Qed.

Lemma SendCommand_steady (w : World) (a : App)
    (deviceName outletNumber state : string) (tLog : Time) :
  steady a →
  ∃ err a' actions,
    SendCommand w a deviceName outletNumber state tLog =
      Some (err, a', actions) ∧
    steady a'.
Proof.
  intros (Hcap & Hlen & Hstore). unfold SendCommand.
  destruct (mqtt.Publish w (mqttClient a) _ _) as [[err|] calls].
  - by eexists _, _, _.
  - rewrite AddMessage_spec by lia. cbn [mbind option_bind].
    eexists _, _, _. split; [done|]. unfold steady, MessageLog.Count. cbn.
    split_and!; try done. rewrite length_take. lia.
Qed.

Lemma SaveSettings_steady (w : World) (a : App)
    (username password server : string) (port : Z) (subscribeString : string) :
  steady a →
  ∃ err a' actions,
    SaveSettings w a username password server port subscribeString =
      Some (err, a', actions) ∧
    steady a'.
Proof.
  intros (Hcap & Hlen & Hstore).
  destruct (settingsAccepted w password port) eqn:Haccepted.
  - destruct (SaveSettings_accepted w a username password server port
                subscribeString Haccepted) as (cfg & _ & _ & _ & ->).
    set (a0 := setStore _ _).
    destruct (connectMQTT_frame w a0 cfg eq_refl)
      as (err0 & a' & actions' & -> & Hstore' & Hlog' & _).
    cbn [mbind option_bind]. eexists _, a', _. split; [done|].
    unfold steady. rewrite Hlog', Hstore'. cbn.
    split_and!; try done. apply reachable_new.
  - destruct (SaveSettings_rejected w a username password server port
                subscribeString Haccepted) as [err ->].
    by eexists _, _, _.
Qed.

(** X27: no run of the coordinator panics.  From [NewApp], through inbound
    messages, commands, settings, disconnects and log clearings in any
    order and with any answers of the collaborators, every call returns;
    the log keeps the capacity 1000 and stays within it, and the store
    holds at most one record per key, each under the key of its own
    identity. *)
Theorem coordinator_runs (ops : list AppOp) :
  ∃ a, runApp NewApp ops = Some a ∧
       MessageLog.maxSize (messageLog a) = 1000%Z ∧
       (Z.of_nat (length (GetMessages a)) ≤ 1000)%Z ∧
       (∀ key d, DeviceStore.devices (deviceStore a) !! key = Some d →
                 key = DeviceStore.makeKey (DeviceName d) (OutletNumber d)).
Proof.
  assert (∀ a, steady a → ∃ a', runApp a ops = Some a' ∧ steady a') as Hruns.
  { induction ops as [|op ops IH]; intros a Ha; [by exists a|].
    cbn [runApp]. destruct op as [topic payload tLog tStore|w d o st tLog|
                                  w u p s port sub|w|].
    - destruct (handleMQTTMessage_steady a topic payload tLog tStore Ha)
        as (a' & events & -> & Ha'). cbn. by apply IH.
    - destruct (SendCommand_steady w a d o st tLog Ha)
        as (err & a' & actions & -> & Ha'). cbn. by apply IH.
    - destruct (SaveSettings_steady w a u p s port sub Ha)
        as (err & a' & actions & -> & Ha'). cbn. by apply IH.
    - cbn. apply IH. apply Ha.
    - cbn. apply IH. destruct Ha as (Hcap & Hlen & Hstore).
      unfold steady, MessageLog.Count. cbn. split_and!; [done|lia|done]. }
  destruct (Hruns NewApp) as (a & Hrun & Hcap & Hlen & Hstore).
  { unfold steady, MessageLog.Count. cbn. split_and!; [done|lia|constructor]. }
  exists a. split_and!; try done. by apply reachable_keyed.
Qed.

End Runs.

End CoordinatorMore.
